(** * Bivariate copulas: Clayton, Gumbel and Independence

    A shallow embedding of [copulas/bivariate/clayton.py],
    [copulas/bivariate/gumbel.py] and [copulas/bivariate/independence.py].

    Number model.  The Python code computes on numpy [float64] values.  They
    are embedded as extended reals: a finite real, the two infinities, or
    NaN.  The special values follow IEEE 754 and the C [pow], [log] and [exp]
    that numpy calls.  [pow] and [exp] overflow to an infinity and underflow
    to zero at the thresholds of float64.  Sums, products and quotients of
    finite values are the exact reals: the rounding of a result to 53 bits
    and the sign of zero are not modelled, and the properties below that
    depend on a product or a sum staying in range say so in a hypothesis. *)

From Stdlib Require Import Reals Lra List Bool ZArith Lia.
Import ListNotations.
Open Scope R_scope.

(** ** numpy float64 values and their arithmetic *)

Module Np.

Inductive float64 : Type :=
| Fin (r : R)
| PInf
| NInf
| NaN.

Inductive sign : Type := Neg | Zero | Pos.

Definition Rltb (a b : R) : bool := if Rlt_dec a b then true else false.
Definition Reqb (a b : R) : bool := if Req_dec_T a b then true else false.

Definition Rsign (r : R) : sign :=
  if Rltb 0 r then Pos else if Rltb r 0 then Neg else Zero.

Definition sign_mul (s1 s2 : sign) : sign :=
  match s1, s2 with
  | Zero, _ | _, Zero => Zero
  | Pos, Pos | Neg, Neg => Pos
  | Pos, Neg | Neg, Pos => Neg
  end.

(** The sign of a value that is not NaN. *)
Definition fsign (x : float64) : sign :=
  match x with
  | Fin r => Rsign r
  | PInf => Pos
  | NInf => Neg
  | NaN => Zero
  end.

Definition inf_of_sign (s : sign) : float64 :=
  match s with
  | Pos => PInf
  | Neg => NInf
  | Zero => NaN
  end.

Definition fneg (x : float64) : float64 :=
  match x with
  | Fin r => Fin (- r)
  | PInf => NInf
  | NInf => PInf
  | NaN => NaN
  end.

Definition fadd (x y : float64) : float64 :=
  match x, y with
  | NaN, _ | _, NaN => NaN
  | Fin a, Fin b => Fin (a + b)
  | PInf, NInf | NInf, PInf => NaN
  | PInf, _ | _, PInf => PInf
  | NInf, _ | _, NInf => NInf
  end.

Definition fsub (x y : float64) : float64 := fadd x (fneg y).

Definition fmul (x y : float64) : float64 :=
  match x, y with
  | NaN, _ | _, NaN => NaN
  | Fin a, Fin b => Fin (a * b)
  | _, _ => inf_of_sign (sign_mul (fsign x) (fsign y))
  end.

(** numpy division: a finite value over zero is an infinity (zero over zero
    is NaN); nothing is raised. *)
Definition fdiv (x y : float64) : float64 :=
  match x, y with
  | NaN, _ | _, NaN => NaN
  | Fin a, Fin b => if Reqb b 0 then inf_of_sign (Rsign a) else Fin (a / b)
  | Fin _, _ => Fin 0
  | _, Fin b => if Reqb b 0 then x else inf_of_sign (sign_mul (fsign x) (Rsign b))
  | _, _ => NaN
  end.

Definition fabs (x : float64) : float64 :=
  match x with
  | Fin r => Fin (Rabs r)
  | PInf | NInf => PInf
  | NaN => NaN
  end.

(** Comparisons: every comparison with NaN is false. *)
Definition feqb (x y : float64) : bool :=
  match x, y with
  | Fin a, Fin b => Reqb a b
  | PInf, PInf | NInf, NInf => true
  | _, _ => false
  end.

Definition fltb (x y : float64) : bool :=
  match x, y with
  | Fin a, Fin b => Rltb a b
  | NInf, Fin _ | NInf, PInf | Fin _, PInf => true
  | _, _ => false
  end.

Definition fgtb (x y : float64) : bool := fltb y x.

(** Python's builtin [max(x, y)] of two values: the first one, unless the
    second compares greater. *)
Definition py_max (x y : float64) : float64 :=
  if fgtb y x then y else x.

(** The largest finite float64 and the smallest positive normal one. *)
Definition float_max : R := (2 - / 2 ^ 52) * 2 ^ 1023.
Definition float_min_normal : R := / 2 ^ 1022.

(** Rounding to nearest turns an exact result into an infinity from
    [overflow_threshold] on (half a unit in the last place above
    [float_max]) and into zero up to [underflow_threshold] (half the
    smallest subnormal). *)
Definition overflow_threshold : R := (2 - / 2 ^ 53) * 2 ^ 1023.
Definition underflow_threshold : R := / 2 ^ 1075.

(** The float64 returned for the exact result [r] of [pow] or [exp],
    precision aside: an infinity on overflow, zero on underflow, [r]
    itself in between. *)
Definition finite_result (r : R) : float64 :=
  if Rltb (Rabs r) overflow_threshold
  then (if Rltb underflow_threshold (Rabs r) then Fin r else Fin 0)
  else inf_of_sign (Rsign r).

(** A positive value in the normal range of float64: no operation that
    returns it overflows, underflows or loses precision to a subnormal. *)
Definition normal (r : R) : Prop := float_min_normal <= r <= float_max.

(** [np.log]. *)
Definition log (x : float64) : float64 :=
  match x with
  | Fin r => if Rltb 0 r then Fin (ln r) else if Reqb r 0 then NInf else NaN
  | PInf => PInf
  | NInf => NaN
  | NaN => NaN
  end.

(** [np.exp]. *)
Definition exp (x : float64) : float64 :=
  match x with
  | Fin r => finite_result (Rtrigo_def.exp r)
  | PInf => PInf
  | NInf => Fin 0
  | NaN => NaN
  end.

Definition is_int (y : R) : bool := Reqb (IZR (Int_part y)) y.
Definition is_odd_int (y : R) : bool := is_int y && Z.odd (Int_part y).

(** [x ** y] for a finite base and a finite exponent other than zero. *)
Definition power_fin (a b : R) : float64 :=
  if Rltb 0 a then finite_result (Rpower a b)
  else if Reqb a 0 then (if Rltb 0 b then Fin 0 else PInf)
  else if is_int b then finite_result (powerRZ a (Int_part b))
  else NaN.

(** [x ** y] for a finite base other than 1 and an infinite exponent;
    [up] says whether the exponent is plus infinity. *)
Definition power_inf_exp (a : R) (up : bool) : float64 :=
  if Reqb (Rabs a) 1 then Fin 1
  else if Rltb (Rabs a) 1 then (if up then Fin 0 else PInf)
  else (if up then PInf else Fin 0).

(** [np.power], the C [pow]. *)
Definition power (x y : float64) : float64 :=
  if feqb y (Fin 0) then Fin 1
  else if feqb x (Fin 1) then Fin 1
  else
    match x, y with
    | NaN, _ | _, NaN => NaN
    | Fin a, Fin b => power_fin a b
    | Fin a, PInf => power_inf_exp a true
    | Fin a, NInf => power_inf_exp a false
    | PInf, Fin b => if Rltb 0 b then PInf else Fin 0
    | NInf, Fin b =>
        if Rltb 0 b then (if is_odd_int b then NInf else PInf) else Fin 0
    | _, PInf => PInf
    | _, NInf => Fin 0
    end.

End Np.

Import Np.

(** ** Exceptions and results *)

(** The exceptions the evaluators can raise.  [ValueError] is numpy's
    failure to broadcast two arrays of different lengths. *)
Inductive error : Type :=
| UnfittedModelError
| ParameterDomainError
| ShapeError
| ValueError.

Inductive result (A : Type) : Type :=
| Ok (a : A)
| Raise (e : error).

Arguments Ok {A} a.
Arguments Raise {A} e.

Definition bind {A B : Type} (m : result A) (k : A -> result B) : result B :=
  match m with
  | Ok a => k a
  | Raise e => Raise e
  end.

Notation "x <- m ;; k" := (bind m (fun x => k))
  (at level 61, m at next level, right associativity).
Notation "' pat <- m ;; k" := (bind m (fun x => match x with pat => k end))
  (at level 61, pat pattern, m at next level, right associativity).
Notation "m ;;; k" := (bind m (fun _ => k))
  (at level 61, right associativity).

(** ** Arrays *)

(** A one-dimensional array, and an array of rows. *)
Definition vector : Type := list float64.
Definition matrix : Type := list (list float64).

Fixpoint zip_with (f : float64 -> float64 -> float64) (U V : vector) : vector :=
  match U, V with
  | u :: U', v :: V' => f u v :: zip_with f U' V'
  | _, _ => []
  end.

(** An elementwise binary operation on two arrays, with numpy's
    broadcasting: equal lengths pair up, an array of length one is
    stretched, anything else raises. *)
Definition broadcast (f : float64 -> float64 -> float64) (U V : vector)
  : result vector :=
  if Nat.eqb (length U) (length V) then Ok (zip_with f U V)
  else
    match U, V with
    | [u], _ => Ok (map (f u) V)
    | _, [v] => Ok (map (fun u => f u v) U)
    | _, _ => Raise ValueError
    end.

(** An array combined with a scalar on the right, or on the left. *)
Definition vscalar_r (f : float64 -> float64 -> float64) (U : vector)
  (c : float64) : vector := map (fun u => f u c) U.
Definition vscalar_l (f : float64 -> float64 -> float64) (c : float64)
  (U : vector) : vector := map (f c) U.

(** [np.zeros(n)]. *)
Definition zeros (n : nat) : vector := repeat (Fin 0) n.

(** [(U == c).all()]. *)
Definition all_eq (U : vector) (c : float64) : bool :=
  forallb (fun u => feqb u c) U.

(** ** The base class *)

(** The instance state: the dependence parameter, Kendall's tau and the
    fitted flag. *)
Record Bivariate : Type := mkBivariate {
  theta : float64;
  tau : float64;
  fitted : bool
}.

(** Modelled from the spec: [Bivariate.check_fit] of
    [copulas/bivariate/base.py], which is not part of the sources at hand.
    It fails with an [UnfittedModelError] if [fitted] is false. *)
Definition check_fit (self : Bivariate) : result unit :=
  if fitted self then Ok tt else Raise UnfittedModelError.

(** Modelled from the spec: [Bivariate.split_matrix] of
    [copulas/bivariate/base.py].  It splits the (n,2) matrix into the two
    length-n sequences U and V, and fails with a [ShapeError] if the matrix
    is not exactly two columns wide. *)
Fixpoint split_matrix (X : matrix) : result (vector * vector) :=
  match X with
  | [] => Ok ([], [])
  | [u; v] :: X' =>
      '(U, V) <- split_matrix X' ;; Ok (u :: U, v :: V)
  | _ :: _ => Raise ShapeError
  end.

(** An instance that was never fitted; its parameter fields hold no number. *)
Definition unfitted : Bivariate := mkBivariate NaN NaN false.

(** The matrix with its two columns exchanged. *)
Definition swap_columns (X : matrix) : matrix := map (@rev float64) X.

(** Modelled from the spec: what the corners of the unit square demand of
    the entry [e] computed for the pair [uv], 1 at the pair (1, 1) and 0 at
    every pair of the unit square whose first or second value is 0. *)
Definition corner_rule (uv : float64 * float64) (e : float64) : Prop :=
  (uv = (Fin 1, Fin 1) -> e = Fin 1) /\
  (forall a, 0 <= a <= 1 ->
     uv = (Fin a, Fin 0) \/ uv = (Fin 0, Fin a) -> e = Fin 0).

(** The (n,2) matrix whose rows are the given pairs of finite values, and
    its two columns. *)
Definition pairs_matrix (l : list (R * R)) : matrix :=
  map (fun p => [Fin (fst p); Fin (snd p)]) l.
Definition column_u (l : list (R * R)) : vector := map (fun p => Fin (fst p)) l.
Definition column_v (l : list (R * R)) : vector := map (fun p => Fin (snd p)) l.

Declare Scope f64_scope.
Delimit Scope f64_scope with f64.
Bind Scope f64_scope with float64.
Notation "x + y" := (fadd x y) : f64_scope.
Notation "x - y" := (fsub x y) : f64_scope.
Notation "x * y" := (fmul x y) : f64_scope.
Notation "x / y" := (fdiv x y) : f64_scope.
Notation "- x" := (fneg x) : f64_scope.
Notation "x ** y" := (power x y) (at level 30, right associativity) : f64_scope.
Notation "U .** c" := (vscalar_r power U c) (at level 30) : f64_scope.
Notation "U .- c" := (vscalar_r fsub U c) (at level 50, left associativity) : f64_scope.
Notation "c .* U" := (vscalar_l fmul c U) (at level 40, left associativity) : f64_scope.

(** Python number literals are finite values. *)
Coercion Fin : R >-> float64.

(** ** clayton.py *)

Module Clayton.

Definition theta_interval : float64 * float64 := (Fin (-1), PInf).
Definition invalid_thetas : list float64 := [Fin 0].

Definition generator (self : Bivariate) (t : vector) : result vector :=
  check_fit self ;;;
  Ok ((1 / theta self) .* (t .** (- theta self) .- 1))%f64.

Definition probability_density (self : Bivariate) (X : matrix)
  : result vector :=
  check_fit self ;;;
  '(U, V) <- split_matrix X ;;
  UV <- broadcast fmul U V ;;
  let a := ((theta self + 1) .* (UV .** (- (theta self + 1))))%f64 in
  b0 <- broadcast fadd (U .** (- theta self))%f64 (V .** (- theta self))%f64 ;;
  let b := (b0 .- 1)%f64 in
  let c := (- (2 * theta self + 1) / theta self)%f64 in
  broadcast fmul a (b .** c)%f64.

(** One entry of the list comprehension of [cumulative_distribution]. *)
Definition cdf_entry (th u v : float64) : float64 :=
  if fgtb u 0 && fgtb v 0
  then ((u ** (- th) + v ** (- th) - 1) ** (Fin (-1) / th))%f64
  else 0.

(** The formula that the docstring of [cumulative_distribution] states,
    [C(u,v) = max[(u^-theta + v^-theta - 1), 0]^(-1/theta)]: the base is
    clamped at 0 and then raised to the power. *)
Definition cdf_documented (th u v : float64) : float64 :=
  (py_max (u ** (- th) + v ** (- th) - 1) 0 ** (Fin (-1) / th))%f64.

Definition cumulative_distribution (self : Bivariate) (X : matrix)
  : result vector :=
  check_fit self ;;;
  '(U, V) <- split_matrix X ;;
  if all_eq V 0 || all_eq U 0 then Ok (zeros (length V))
  else
    let cdfs := map (fun uv => cdf_entry (theta self) (fst uv) (snd uv))
                    (combine U V) in
    Ok (map (fun x => py_max x 0) cdfs).

Definition percent_point (self : Bivariate) (y V : vector) : result vector :=
  check_fit self ;;;
  if fltb (theta self) 0 then Ok V
  else
    let a := (y .** (theta self / (Fin (-1) - theta self)))%f64 in
    let b := (V .** theta self)%f64 in
    ab <- broadcast fadd a b ;;
    q <- broadcast fdiv (ab .- 1)%f64 b ;;
    Ok (q .** (Fin (-1) / theta self))%f64.

Definition partial_derivative (self : Bivariate) (X : matrix) (y : float64)
  : result vector :=
  check_fit self ;;;
  '(U, V) <- split_matrix X ;;
  if feqb (theta self) 0 then Ok V
  else
    let A := (V .** (- theta self - 1))%f64 in
    B0 <- broadcast fadd (V .** (- theta self))%f64 (U .** (- theta self))%f64 ;;
    let B := (B0 .- 1)%f64 in
    let h := (B .** ((Fin (-1) - theta self) / theta self))%f64 in
    Ah <- broadcast fmul A h ;;
    Ok (Ah .- y)%f64.

Definition compute_theta (self : Bivariate) : float64 :=
  if feqb (tau self) 1 then 10000
  else (2 * tau self / (1 - tau self))%f64.

End Clayton.

(** ** gumbel.py *)

Module Gumbel.

Definition theta_interval : float64 * float64 := (Fin 1, PInf).
Definition invalid_thetas : list float64 := [].

(** [-np.log(U)] on an array. *)
Definition neg_log (U : vector) : vector := map (fun u => (- log u)%f64) U.

Definition generator (self : Bivariate) (t : vector) : result vector :=
  Ok (neg_log t .** theta self)%f64.

Definition cumulative_distribution (self : Bivariate) (X : matrix)
  : result vector :=
  check_fit self ;;;
  '(U, V) <- split_matrix X ;;
  if feqb (theta self) 1 then broadcast fmul U V
  else
    h <- broadcast fadd (neg_log U .** theta self)%f64
                        (neg_log V .** theta self)%f64 ;;
    let h' := map fneg (h .** (1 / theta self))%f64 in
    let cdfs := map exp h' in
    Ok cdfs.

Definition probability_density (self : Bivariate) (X : matrix)
  : result vector :=
  check_fit self ;;;
  '(U, V) <- split_matrix X ;;
  if feqb (theta self) 1 then broadcast fmul U V
  else
    UV <- broadcast fmul U V ;;
    let a := (UV .** Fin (-1))%f64 in
    tmp <- broadcast fadd (neg_log U .** theta self)%f64
                          (neg_log V .** theta self)%f64 ;;
    let b := (tmp .** (Fin (-2) + 2 / theta self))%f64 in
    LL <- broadcast fmul (map log U) (map log V) ;;
    let c := (LL .** (theta self - 1))%f64 in
    let d := vscalar_l fadd 1
               ((theta self - 1) .* (tmp .** (Fin (-1) / theta self)))%f64 in
    p <- cumulative_distribution self X ;;
    pa <- broadcast fmul p a ;;
    pab <- broadcast fmul pa b ;;
    pabc <- broadcast fmul pab c ;;
    broadcast fmul pabc d.

Definition partial_derivative (self : Bivariate) (X : matrix) (y : float64)
  : result vector :=
  check_fit self ;;;
  '(U, V) <- split_matrix X ;;
  if feqb (theta self) 1 then Ok V
  else
    let t1 := (neg_log U .** theta self)%f64 in
    let t2 := (neg_log V .** theta self)%f64 in
    p1 <- cumulative_distribution self X ;;
    t12 <- broadcast fadd t1 t2 ;;
    let p2 := (t12 .** (Fin (-1) + 1 / theta self))%f64 in
    let p3 := (neg_log V .** (theta self - 1))%f64 in
    p12 <- broadcast fmul p1 p2 ;;
    p123 <- broadcast fmul p12 p3 ;;
    q <- broadcast fdiv p123 V ;;
    Ok (q .- y)%f64.

(** Modelled from the spec: [Bivariate.partial_derivative_scalar] of
    [copulas/bivariate/base.py], the objective handed to the bounded search:
    the absolute value of the residual of [partial_derivative] at the single
    pair (u, v) for the target y. *)
Definition partial_derivative_scalar (self : Bivariate) (y v u : float64)
  : float64 :=
  match partial_derivative self [[u; v]] y with
  | Ok [r] => fabs r
  | _ => NaN
  end.

Section Search.

(** [scipy.optimize.fminbound], the bounded scalar minimiser, and the
    constant [copulas.EPSILON]: both are outside these sources. *)
Variable fminbound : (float64 -> float64) -> float64 -> float64 -> float64.
Variable EPSILON : float64.

Definition percent_point (self : Bivariate) (y V : vector) : result vector :=
  check_fit self ;;;
  if feqb (theta self) 1 then Ok y
  else
    Ok (map (fun yv =>
               fminbound (partial_derivative_scalar self (fst yv) (snd yv))
                         EPSILON 1)
            (combine y V)).

End Search.

Definition compute_theta (self : Bivariate) : float64 :=
  (1 / (1 - tau self))%f64.

End Gumbel.

(** ** independence.py *)

Module Independence.

Definition fit (self : Bivariate) (X : matrix) : result Bivariate :=
  Ok self.

Definition generator (self : Bivariate) (t : vector) : result vector :=
  Ok (map log t).

Section Density.

(** [scipy.stats.multivariate_normal.pdf] at identity covariance, outside
    these sources. *)
Variable multivariate_normal_pdf : matrix -> result vector.

Definition probability_density (self : Bivariate) (X : matrix)
  : result vector :=
  multivariate_normal_pdf X.

End Density.

Definition cumulative_distribution (self : Bivariate) (X : matrix)
  : result vector :=
  '(U, V) <- split_matrix X ;;
  broadcast fmul U V.

Definition partial_derivative (self : Bivariate) (X : matrix)
  : result matrix :=
  Ok X.

Definition percent_point (self : Bivariate) (y V : vector) : result vector :=
  check_fit self ;;;
  Ok V.

End Independence.

(** * Properties *)

(** ** Deciding comparisons of reals *)

Lemma Rltb_true (a b : R) : a < b -> Rltb a b = true.
Proof. intros H. unfold Rltb. destruct (Rlt_dec a b); [reflexivity | contradiction]. Qed.

Lemma Rltb_false (a b : R) : b <= a -> Rltb a b = false.
Proof. intros H. unfold Rltb. destruct (Rlt_dec a b); [lra | reflexivity]. Qed.

Lemma Reqb_true (a b : R) : a = b -> Reqb a b = true.
Proof. intros H. unfold Reqb. destruct (Req_dec_T a b); [reflexivity | contradiction]. Qed.

Lemma Reqb_false (a b : R) : a <> b -> Reqb a b = false.
Proof. intros H. unfold Reqb. destruct (Req_dec_T a b); [contradiction | reflexivity]. Qed.

Lemma Reqb_eq (a b : R) : Reqb a b = true -> a = b.
Proof. unfold Reqb. destruct (Req_dec_T a b); [trivial | discriminate]. Qed.

Lemma Reqb_neq (a b : R) : Reqb a b = false -> a <> b.
Proof. unfold Reqb. destruct (Req_dec_T a b); [discriminate | trivial]. Qed.

Lemma Reqb_sym (a b : R) : Reqb a b = Reqb b a.
Proof.
  unfold Reqb. destruct (Req_dec_T a b), (Req_dec_T b a); congruence.
Qed.

(** Settles the comparisons of the goal whose outcome [lra] can decide. *)
Ltac rcompare :=
  repeat match goal with
  | |- context [Rltb ?a ?b] =>
      first [ rewrite (Rltb_true a b) by lra | rewrite (Rltb_false a b) by lra ]
  | |- context [Reqb ?a ?b] =>
      first [ rewrite (Reqb_true a b) by lra | rewrite (Reqb_false a b) by lra ]
  end.

(** ** Arithmetic of float64 *)

Lemma sign_mul_comm (s1 s2 : sign) : sign_mul s1 s2 = sign_mul s2 s1.
Proof. destruct s1, s2; reflexivity. Qed.

Lemma fadd_comm (x y : float64) : (x + y)%f64 = (y + x)%f64.
Proof. destruct x, y; simpl; try reflexivity. f_equal. lra. Qed.

Lemma fmul_comm (x y : float64) : (x * y)%f64 = (y * x)%f64.
Proof.
  destruct x, y; simpl; try reflexivity;
    try (f_equal; lra); rewrite sign_mul_comm; reflexivity.
Qed.

Lemma power_one_l (y : float64) : (Fin 1 ** y)%f64 = Fin 1.
Proof.
  unfold power. destruct (feqb y (Fin 0)); [reflexivity |].
  simpl. rewrite Reqb_true by reflexivity. reflexivity.
Qed.

(** ** Arrays and the base class *)

Lemma broadcast_same_length f (U V : vector) :
  length U = length V -> broadcast f U V = Ok (zip_with f U V).
Proof. intros H. unfold broadcast. rewrite H, Nat.eqb_refl. reflexivity. Qed.

Lemma zip_with_comm f (U V : vector) :
  (forall x y, f x y = f y x) -> zip_with f U V = zip_with f V U.
Proof.
  intros Hf. revert V. induction U as [|u U IH]; intros [|v V]; simpl; trivial.
  rewrite Hf, IH. reflexivity.
Qed.

Lemma split_matrix_length (X : matrix) (U V : vector) :
  split_matrix X = Ok (U, V) -> length U = length X /\ length V = length X.
Proof.
  revert U V. induction X as [|row X IH]; intros U V H; simpl in H.
  - injection H as <- <-. split; reflexivity.
  - destruct row as [|u [|v [|w row]]]; try discriminate.
    destruct (split_matrix X) as [[U' V']|e]; simpl in H; [|discriminate].
    injection H as <- <-. destruct (IH U' V' eq_refl) as [HU HV].
    simpl. split; congruence.
Qed.

Lemma split_matrix_bad_row (row : list float64) (X : matrix) :
  length row <> 2%nat -> split_matrix (row :: X) = Raise ShapeError.
Proof.
  intros H. destruct row as [|u [|v [|w row]]]; simpl in *;
    try reflexivity. contradiction H; reflexivity.
Qed.

Lemma split_matrix_swap (X : matrix) :
  split_matrix (swap_columns X) =
  '(U, V) <- split_matrix X ;; Ok (V, U).
Proof.
  induction X as [|row X IH]; [reflexivity |].
  destruct (Nat.eq_dec (length row) 2) as [E|E].
  - destruct row as [|u [|v [|w row]]]; try discriminate E.
    simpl. fold (swap_columns X). rewrite IH.
    destruct (split_matrix X) as [[U V]|e]; reflexivity.
  - rewrite (split_matrix_bad_row row X E).
    change (swap_columns (row :: X)) with (rev row :: swap_columns X).
    apply split_matrix_bad_row. rewrite length_rev. exact E.
Qed.

Lemma split_matrix_error (X : matrix) (e : error) :
  split_matrix X = Raise e -> e = ShapeError.
Proof.
  induction X as [|row X IH]; simpl; [discriminate |].
  destruct row as [|u [|v [|w row]]]; try (intros [= <-]; reflexivity).
  destruct (split_matrix X) as [[U V]|e']; simpl; [discriminate |].
  intros [= <-]. apply IH. reflexivity.
Qed.

Lemma broadcast_error f (U V : vector) (e : error) :
  broadcast f U V = Raise e -> e = ValueError.
Proof.
  unfold broadcast. destruct (Nat.eqb (length U) (length V)); [discriminate |].
  destruct U as [|u [|u' U]], V as [|v [|v' V]];
    first [ discriminate | intros [= <-]; reflexivity ].
Qed.

(** ** The range of float64 *)

Lemma float_min_normal_pos : 0 < float_min_normal.
Proof. unfold float_min_normal. lra. Qed.

Lemma float_range_reciprocal : 2 / float_min_normal <= float_max.
Proof. unfold float_min_normal, float_max. lra. Qed.

Lemma normal_pos (r : R) : normal r -> 0 < r.
Proof. intros [H _]. pose proof float_min_normal_pos. lra. Qed.

Lemma normal_one : normal 1.
Proof. unfold normal, float_min_normal, float_max. lra. Qed.

(** A positive value between the two thresholds is returned as it is. *)
Lemma finite_result_normal (r : R) : normal r -> finite_result r = Fin r.
Proof.
  intros [Hlo Hhi]. pose proof float_min_normal_pos as Hpos.
  unfold finite_result. rewrite Rabs_pos_eq by lra.
  rewrite Rltb_true by (unfold overflow_threshold, float_max in *; lra).
  rewrite Rltb_true
    by (unfold underflow_threshold, float_min_normal in *; lra).
  reflexivity.
Qed.

(** The result for a positive value is that value, zero or plus infinity,
    and it is the value itself exactly when it is returned finite and
    positive. *)
Lemma finite_result_pos (r : R) :
  0 < r ->
  finite_result r = PInf \/ finite_result r = Fin 0 \/ finite_result r = Fin r.
Proof.
  intros Hr. unfold finite_result.
  destruct (Rltb (Rabs r) overflow_threshold).
  - destruct (Rltb underflow_threshold (Rabs r)); auto.
  - left. unfold Rsign. rewrite Rltb_true by exact Hr. reflexivity.
Qed.

(** ** The fit guard *)

(** C1 (as amended).  On an instance with [fitted = false], every Clayton
    operation (generator, probability_density, cumulative_distribution,
    percent_point, partial_derivative), Gumbel's probability_density,
    cumulative_distribution, percent_point and partial_derivative, and
    Independence's percent_point raise [UnfittedModelError] whatever their
    input is, a badly shaped matrix included: the guard runs first.
    Independence's generator, cumulative_distribution and partial_derivative
    carry no guard and never raise [UnfittedModelError]; its
    probability_density carries no guard either and returns whatever the
    density of scipy returns for the matrix. *)
Theorem unfitted_guard
  (fminbound : (float64 -> float64) -> float64 -> float64 -> float64)
  (EPSILON : float64)
  (multivariate_normal_pdf : matrix -> result vector)
  (self : Bivariate) (X : matrix) (t y V : vector) (c : float64) :
  fitted self = false ->
  (Clayton.generator self t = Raise UnfittedModelError /\
   Clayton.probability_density self X = Raise UnfittedModelError /\
   Clayton.cumulative_distribution self X = Raise UnfittedModelError /\
   Clayton.percent_point self y V = Raise UnfittedModelError /\
   Clayton.partial_derivative self X c = Raise UnfittedModelError) /\
  (Gumbel.probability_density self X = Raise UnfittedModelError /\
   Gumbel.cumulative_distribution self X = Raise UnfittedModelError /\
   Gumbel.percent_point fminbound EPSILON self y V = Raise UnfittedModelError /\
   Gumbel.partial_derivative self X c = Raise UnfittedModelError) /\
  Independence.percent_point self y V = Raise UnfittedModelError /\
  (Independence.generator self t <> Raise UnfittedModelError /\
   Independence.cumulative_distribution self X <> Raise UnfittedModelError /\
   Independence.partial_derivative self X <> Raise UnfittedModelError /\
   Independence.probability_density multivariate_normal_pdf self X
     = multivariate_normal_pdf X).
Proof.
  intros Hfit.
  assert (Hg : check_fit self = Raise UnfittedModelError)
    by (unfold check_fit; rewrite Hfit; reflexivity).
  repeat split;
    try (unfold Clayton.generator, Clayton.probability_density,
           Clayton.cumulative_distribution, Clayton.percent_point,
           Clayton.partial_derivative, Gumbel.probability_density,
           Gumbel.cumulative_distribution, Gumbel.percent_point,
           Gumbel.partial_derivative, Independence.percent_point;
         rewrite Hg; reflexivity);
    try discriminate; try reflexivity.
  unfold Independence.cumulative_distribution.
  destruct (split_matrix X) as [[U W]|e] eqn:E; simpl.
  - intros H. apply broadcast_error in H. discriminate.
  - intros [= ->]. apply split_matrix_error in E. discriminate.
Qed.

Lemma unfitted_guard_witness :
  Clayton.cumulative_distribution unfitted [[Fin 1; Fin 1; Fin 1]]
    = Raise UnfittedModelError /\
  Gumbel.cumulative_distribution unfitted [[Fin 1; Fin 1; Fin 1]]
    = Raise UnfittedModelError.
Proof.
  pose proof (unfitted_guard (fun _ a _ => a) (Fin 0) (fun _ => Ok [])
                unfitted
                [[Fin 1; Fin 1; Fin 1]] [] [] [] (Fin 0) eq_refl) as H.
  split; [apply H | apply H].
Defined.

(** C1 (counterexample).  Independence's cumulative_distribution on an
    instance with [fitted = false] returns the product instead of raising. *)
Lemma unfitted_guard_fails_for_independence :
  fitted unfitted = false /\
  Independence.cumulative_distribution unfitted [[Fin (3/10); Fin (4/10)]]
    = Ok [Fin (3/10 * (4/10))].
Proof. split; reflexivity. Qed.

(** ** Independence *)

(** C8.  [Independence.fit] succeeds on every input, a ragged or empty
    matrix included, and hands back the instance with theta, tau and
    fitted as they were. *)
Theorem independence_fit_noop (self : Bivariate) (X : matrix) :
  exists self', Independence.fit self X = Ok self' /\
    theta self' = theta self /\ tau self' = tau self /\
    fitted self' = fitted self.
Proof. exists self. repeat split. Qed.

(** ** Theta from tau *)

(** C6.  [Clayton.compute_theta] is exactly 10000 at tau = 1, a finite
    value, and 2 tau / (1 - tau) at every tau below 1. *)
Theorem clayton_compute_theta (th : float64) (f : bool) (t : R) :
  t < 1 ->
  Clayton.compute_theta (mkBivariate th (Fin 1) f) = Fin 10000 /\
  Clayton.compute_theta (mkBivariate th (Fin t) f) = Fin (2 * t / (1 - t)).
Proof.
  intros Ht. unfold Clayton.compute_theta; simpl. split.
  - rcompare. reflexivity.
  - rcompare. reflexivity.
Qed.

Lemma clayton_compute_theta_witness :
  Clayton.compute_theta (mkBivariate NaN (Fin 1) false) = Fin 10000 /\
  Clayton.compute_theta (mkBivariate NaN (Fin (1/2)) false)
    = Fin (2 * (1/2) / (1 - 1/2)).
Proof. apply (clayton_compute_theta NaN false (1/2)). lra. Defined.

(** C10.  [Gumbel.compute_theta] is the bare quotient 1 / (1 - tau): at
    every tau other than 1 the divisor is not zero and the result is that
    finite quotient; at tau = 1 the division by zero goes through and yields
    infinity, where Clayton returns its finite sentinel. *)
Theorem gumbel_compute_theta (th : float64) (f : bool) (t : R) :
  t <> 1 ->
  (forall self, Gumbel.compute_theta self = (1 / (1 - tau self))%f64) /\
  (1 - t <> 0 /\
   Gumbel.compute_theta (mkBivariate th (Fin t) f) = Fin (1 / (1 - t))) /\
  Gumbel.compute_theta (mkBivariate th (Fin 1) f) = PInf /\
  Clayton.compute_theta (mkBivariate th (Fin 1) f) = Fin 10000.
Proof.
  intros Ht. unfold Gumbel.compute_theta, Clayton.compute_theta; simpl.
  repeat split.
  - lra.
  - rcompare. reflexivity.
  - rcompare. unfold Rsign. rcompare. reflexivity.
  - rcompare. reflexivity.
Qed.

Lemma gumbel_compute_theta_witness :
  Gumbel.compute_theta (mkBivariate NaN (Fin (1/2)) false)
    = Fin (1 / (1 - 1/2)) /\
  Gumbel.compute_theta (mkBivariate NaN (Fin 1) false) = PInf.
Proof.
  pose proof (gumbel_compute_theta NaN false (1/2)) as H.
  split; apply H; lra.
Defined.

(** ** Gumbel at theta = 1 *)

(** C3.  For a fitted Gumbel with theta = 1, [cumulative_distribution] is the
    elementwise product of the two columns and [percent_point] returns its
    first argument, without any call of the search. *)
Theorem gumbel_theta_one
  (fminbound : (float64 -> float64) -> float64 -> float64 -> float64)
  (EPSILON : float64)
  (self : Bivariate) (X : matrix) (U V y W : vector) :
  fitted self = true -> theta self = Fin 1 ->
  split_matrix X = Ok (U, V) ->
  Gumbel.cumulative_distribution self X = Ok (zip_with fmul U V) /\
  Gumbel.percent_point fminbound EPSILON self y W = Ok y.
Proof.
  intros Hfit Hth HX.
  unfold Gumbel.cumulative_distribution, Gumbel.percent_point, check_fit.
  rewrite Hfit, Hth, HX; simpl. rcompare. split; [| reflexivity].
  apply broadcast_same_length.
  destruct (split_matrix_length X U V HX). congruence.
Qed.

Lemma gumbel_theta_one_witness :
  Gumbel.cumulative_distribution (mkBivariate (Fin 1) (Fin 0) true)
    [[Fin (3/10); Fin (4/10)]] = Ok [(Fin (3/10) * Fin (4/10))%f64] /\
  Gumbel.percent_point (fun _ a _ => a) (Fin 0)
    (mkBivariate (Fin 1) (Fin 0) true) [Fin (1/4)] [Fin (1/2)]
    = Ok [Fin (1/4)].
Proof.
  apply (gumbel_theta_one (fun _ a _ => a) (Fin 0)
           (mkBivariate (Fin 1) (Fin 0) true) [[Fin (3/10); Fin (4/10)]]
           [Fin (3/10)] [Fin (4/10)] [Fin (1/4)] [Fin (1/2)]);
    reflexivity.
Defined.

(** C4 (the code at the failing input).  For a fitted Gumbel with
    theta = 1, [partial_derivative] returns the column V itself for every
    offset y: the offset is not subtracted.  At X = [[1/2, 1/2]] and
    y = 1/4 the result is [1/2], while V - y is [1/4]. *)
Theorem gumbel_partial_derivative_theta_one_drops_offset :
  (forall (t u v y : float64),
     Gumbel.partial_derivative (mkBivariate (Fin 1) t true) [[u; v]] y
     = Ok [v]) /\
  Gumbel.partial_derivative (mkBivariate (Fin 1) (Fin 0) true)
    [[Fin (1/2); Fin (1/2)]] (Fin (1/4)) = Ok [Fin (1/2)] /\
  ([Fin (1/2)] .- Fin (1/4))%f64 <> [Fin (1/2)].
Proof.
  assert (H : forall t u v y,
     Gumbel.partial_derivative (mkBivariate (Fin 1) t true) [[u; v]] y
     = Ok [v]).
  { intros. unfold Gumbel.partial_derivative; simpl. rcompare. reflexivity. }
  repeat split; [exact H | apply H |].
  simpl. intros [= E]. lra.
Qed.

(** ** Symmetry of the distribution functions *)

Lemma broadcast_comm f (U V : vector) :
  (forall x y, f x y = f y x) -> broadcast f U V = broadcast f V U.
Proof.
  intros Hf. unfold broadcast. rewrite (Nat.eqb_sym (length V) (length U)).
  destruct (Nat.eqb (length U) (length V)) eqn:E.
  - rewrite (zip_with_comm f U V Hf). reflexivity.
  - destruct U as [|u [|u' U]], V as [|v [|v' V]]; try discriminate E;
      try reflexivity; f_equal; apply map_ext; intros a; apply Hf.
Qed.

Lemma map_combine_comm (g : float64 -> float64 -> float64) (U V : vector) :
  (forall a b, g a b = g b a) ->
  map (fun p => g (fst p) (snd p)) (combine U V) =
  map (fun p => g (fst p) (snd p)) (combine V U).
Proof.
  intros Hg. revert V. induction U as [|u U IH]; intros [|v V]; simpl; trivial.
  rewrite Hg, IH. reflexivity.
Qed.

Lemma clayton_cdf_entry_comm (th u v : float64) :
  Clayton.cdf_entry th u v = Clayton.cdf_entry th v u.
Proof.
  unfold Clayton.cdf_entry. rewrite andb_comm.
  rewrite (fadd_comm (u ** (- th))%f64). reflexivity.
Qed.

(** C9.  In every family, exchanging the two columns of the input matrix
    leaves the result of [cumulative_distribution] unchanged, whatever the
    instance state and the matrix are. *)
Theorem cumulative_distribution_symmetric (self : Bivariate) (X : matrix) :
  Clayton.cumulative_distribution self (swap_columns X)
    = Clayton.cumulative_distribution self X /\
  Gumbel.cumulative_distribution self (swap_columns X)
    = Gumbel.cumulative_distribution self X /\
  Independence.cumulative_distribution self (swap_columns X)
    = Independence.cumulative_distribution self X.
Proof.
  unfold Clayton.cumulative_distribution, Gumbel.cumulative_distribution,
    Independence.cumulative_distribution.
  rewrite split_matrix_swap.
  destruct (split_matrix X) as [[U V]|e] eqn:E; simpl.
  - destruct (split_matrix_length X U V E) as [HU HV].
    repeat split.
    + destruct (check_fit self); simpl; [| reflexivity].
      rewrite (orb_comm (all_eq U 0)), HU, HV.
      rewrite (map_combine_comm (Clayton.cdf_entry (theta self)) V U
                 (clayton_cdf_entry_comm (theta self))).
      reflexivity.
    + destruct (check_fit self); simpl; [| reflexivity].
      rewrite (broadcast_comm fmul V U fmul_comm).
      rewrite (broadcast_comm fadd (Gumbel.neg_log V .** theta self)%f64
                 (Gumbel.neg_log U .** theta self)%f64 fadd_comm).
      reflexivity.
    + apply broadcast_comm, fmul_comm.
  - repeat split; destruct (check_fit self); reflexivity.
Qed.

(** ** Values of the distribution functions at the corners *)

Lemma clayton_cdf_one_one (self : Bivariate) (t : R) :
  fitted self = true -> theta self = Fin t ->
  Clayton.cumulative_distribution self [[Fin 1; Fin 1]] = Ok [Fin 1].
Proof.
  intros Hfit Hth. unfold Clayton.cumulative_distribution, check_fit.
  rewrite Hfit, Hth; simpl. rcompare. simpl.
  unfold Clayton.cdf_entry; simpl. rcompare. simpl.
  rewrite power_one_l; simpl.
  replace (1 + 1 + - (1)) with 1 by lra.
  rewrite power_one_l. unfold py_max; simpl. rcompare. reflexivity.
Qed.

Lemma clayton_cdf_zero_r (self : Bivariate) (u : float64) :
  fitted self = true ->
  Clayton.cumulative_distribution self [[u; Fin 0]] = Ok [Fin 0].
Proof.
  intros Hfit. unfold Clayton.cumulative_distribution, check_fit.
  rewrite Hfit; simpl. rcompare. reflexivity.
Qed.

Lemma neg_log_zero : (- log (Fin 0))%f64 = PInf.
Proof. simpl. rcompare. reflexivity. Qed.

Lemma neg_log_one : (- log (Fin 1))%f64 = Fin 0.
Proof. simpl. rcompare. simpl. rewrite ln_1. f_equal. lra. Qed.

Lemma neg_log_unit (u : R) :
  0 < u <= 1 -> exists r, 0 <= r /\ (- log (Fin u))%f64 = Fin r.
Proof.
  intros [H0 H1]. exists (- ln u). split.
  - destruct (Rle_lt_or_eq_dec u 1 H1) as [Hlt | ->].
    + pose proof (ln_increasing u 1 H0 Hlt) as H. rewrite ln_1 in H. lra.
    + rewrite ln_1. lra.
  - simpl. rcompare. reflexivity.
Qed.

Lemma power_zero_pos (t : R) : 0 < t -> (Fin 0 ** Fin t)%f64 = Fin 0.
Proof.
  intros Ht. unfold power; simpl. rcompare. unfold power_fin. rcompare.
  reflexivity.
Qed.

Lemma power_pinf_pos (t : R) : 0 < t -> (PInf ** Fin t)%f64 = PInf.
Proof. intros Ht. unfold power; simpl. rcompare. reflexivity. Qed.

Lemma Rpower_pos (x y : R) : 0 < Rpower x y.
Proof. unfold Rpower. apply exp_pos. Qed.

(** A base that is not negative, raised to a positive power, gives plus
    infinity or a finite value that is not negative; a base 0 gives 0. *)
Lemma power_nonneg_base (r t : R) :
  0 <= r -> 0 < t ->
  ((Fin r ** Fin t)%f64 = PInf \/
   exists s, (Fin r ** Fin t)%f64 = Fin s /\ 0 <= s) /\
  (r = 0 -> (Fin r ** Fin t)%f64 = Fin 0).
Proof.
  intros Hr Ht. split.
  - unfold power; simpl. rcompare.
    destruct (Reqb r 1); [right; exists 1; split; [reflexivity | lra] |].
    unfold power_fin. destruct (Rltb 0 r) eqn:E1.
    + pose proof (Rpower_pos r t) as Hp.
      destruct (finite_result_pos (Rpower r t) Hp) as [-> | [-> | ->]].
      * left. reflexivity.
      * right. exists 0. split; [reflexivity | lra].
      * right. exists (Rpower r t). split; [reflexivity | lra].
    + destruct (Reqb r 0) eqn:E.
      * rcompare. right. exists 0. split; [reflexivity | lra].
      * apply Reqb_neq in E. rewrite Rltb_true in E1 by lra. discriminate.
  - intros ->. apply power_zero_pos, Ht.
Qed.

Lemma fdiv_fin (a b : R) : b <> 0 -> (Fin a / Fin b)%f64 = Fin (a / b).
Proof. intros Hb. simpl. rcompare. reflexivity. Qed.

Lemma Rinv_pos_div (t : R) : 0 < t -> 0 < 1 / t.
Proof. intros Ht. apply Rdiv_lt_0_compat; lra. Qed.

Lemma exp_zero : exp (Fin 0) = Fin 1.
Proof.
  cbn [exp]. rewrite exp_0. apply finite_result_normal, normal_one.
Qed.

(** The entry that Gumbel's formula branch computes for one pair. *)
Lemma gumbel_entry_one (t : R) :
  0 < t ->
  exp (- (((- log (Fin 1)) ** Fin t + (- log (Fin 1)) ** Fin t)
          ** (1 / Fin t)))%f64 = Fin 1.
Proof.
  intros Ht. rewrite neg_log_one, (power_zero_pos t) by exact Ht.
  cbn [fadd]. replace (0 + 0) with 0 by lra.
  rewrite fdiv_fin by lra.
  rewrite power_zero_pos by (apply Rinv_pos_div; exact Ht).
  cbn [fneg]. rewrite Ropp_0. apply exp_zero.
Qed.

(** The power term of a value of the unit interval is plus infinity or
    finite, never NaN or minus infinity; for the value 0 it is plus
    infinity. *)
Lemma gumbel_term_unit (u t : R) :
  0 <= u <= 1 -> 0 < t ->
  ((- log (Fin u)) ** Fin t)%f64 = PInf \/
  exists s, ((- log (Fin u)) ** Fin t)%f64 = Fin s.
Proof.
  intros [H0 H1] Ht. destruct (Rle_lt_or_eq_dec 0 u H0) as [Hlt | <-].
  - destruct (neg_log_unit u (conj Hlt H1)) as [r [Hr ->]].
    destruct (power_nonneg_base r t Hr Ht) as [[H | [s [H _]]] _].
    + left. exact H.
    + right. exists s. exact H.
  - left. rewrite neg_log_zero. apply power_pinf_pos. exact Ht.
Qed.

Lemma gumbel_term_zero (t : R) :
  0 < t -> ((- log (Fin 0)) ** Fin t)%f64 = PInf.
Proof. intros Ht. rewrite neg_log_zero. apply power_pinf_pos. exact Ht. Qed.

Lemma gumbel_entry_zero (t a : R) (u v : float64) :
  0 < t -> 0 <= a <= 1 ->
  (u, v) = (Fin a, Fin 0) \/ (u, v) = (Fin 0, Fin a) ->
  exp (- (((- log u) ** Fin t + (- log v) ** Fin t) ** (1 / Fin t)))%f64
  = Fin 0.
Proof.
  intros Ht Ha Huv.
  assert (Hsum : ((- log u) ** Fin t + (- log v) ** Fin t)%f64 = PInf).
  { destruct Huv as [[= -> ->] | [= -> ->]]; rewrite gumbel_term_zero by lra;
      destruct (gumbel_term_unit a t Ha Ht) as [-> | [s ->]]; reflexivity. }
  rewrite Hsum, fdiv_fin by lra.
  rewrite power_pinf_pos by (apply Rinv_pos_div; lra).
  reflexivity.
Qed.

Lemma clayton_entry_corner (th u v : float64) :
  corner_rule (u, v) (py_max (Clayton.cdf_entry th u v) 0).
Proof.
  split.
  - intros [= -> ->]. unfold Clayton.cdf_entry. cbn [fgtb fltb]. rcompare.
    cbn [andb]. rewrite !power_one_l. cbn [fadd fsub fneg].
    replace (1 + 1 + - (1)) with 1 by lra. rewrite power_one_l.
    unfold py_max, fgtb; cbn [fltb]. rcompare. reflexivity.
  - intros a Ha Huv.
    assert (E : fgtb u 0 && fgtb v 0 = false).
    { destruct Huv as [[= -> ->] | [= -> ->]]; cbn [fgtb fltb]; rcompare;
        [apply andb_false_r | reflexivity]. }
    unfold Clayton.cdf_entry. rewrite E.
    unfold py_max, fgtb; cbn [fltb]. rcompare. reflexivity.
Qed.

Lemma product_entry_corner (u v : float64) : corner_rule (u, v) (u * v)%f64.
Proof.
  split.
  - intros [= -> ->]. cbn [fmul]. f_equal. lra.
  - intros a Ha [[= -> ->] | [= -> ->]]; cbn [fmul]; f_equal; lra.
Qed.

Lemma zip_with_combine f (U V : vector) :
  zip_with f U V = map (fun uv => f (fst uv) (snd uv)) (combine U V).
Proof.
  revert V. induction U as [|u U IH]; intros [|v V]; simpl; trivial.
  rewrite IH. reflexivity.
Qed.

Lemma combine_map_same (g : float64 -> float64) (U V : vector) :
  combine (map g U) (map g V)
  = map (fun uv => (g (fst uv), g (snd uv))) (combine U V).
Proof.
  revert V. induction U as [|u U IH]; intros [|v V]; simpl; trivial.
  rewrite IH. reflexivity.
Qed.

Lemma forall2_map_right (A B : Type) (P : A -> B -> Prop) (g : A -> B)
  (L : list A) :
  (forall a, P a (g a)) -> Forall2 P L (map g L).
Proof.
  intros HP. induction L as [|a L IH]; simpl; constructor; auto.
Qed.

Lemma forall2_zeros_in (P : float64 * float64 -> float64 -> Prop)
  (L : list (float64 * float64)) :
  (forall p, In p L -> P p (Fin 0)) -> Forall2 P L (zeros (length L)).
Proof.
  induction L as [|p L IH]; intros HP; simpl; constructor.
  - apply HP. left. reflexivity.
  - apply IH. intros q Hq. apply HP. right. exact Hq.
Qed.

Lemma combine_length_same (U V : vector) :
  length U = length V -> length (combine U V) = length V.
Proof. intros H. rewrite length_combine, H. apply Nat.min_id. Qed.

(** A column that is 0 throughout holds no 1. *)
Lemma zero_column_has_no_one (U V : vector) :
  all_eq V 0 || all_eq U 0 = true -> ~ In (Fin 1, Fin 1) (combine U V).
Proof.
  intros E Hin. unfold all_eq in E. apply orb_true_iff in E.
  assert (H1 : feqb (Fin 1) 0 = false) by (cbn [feqb]; rcompare; reflexivity).
  destruct E as [E | E]; rewrite forallb_forall in E.
  - apply in_combine_r in Hin. rewrite (E _ Hin) in H1. discriminate.
  - apply in_combine_l in Hin. rewrite (E _ Hin) in H1. discriminate.
Qed.

(** C7.  With a fitted theta of the family's domain and any matrix of two
    columns, every family's [cumulative_distribution] has the entry 1 in
    every row (1, 1) and the entry 0 in every row of the unit square whose
    first or second value is 0, wherever the row stands in the matrix and
    whatever the other rows are. *)
Theorem cumulative_distribution_corners
  (clayton gumbel independence : Bivariate) (tc tg : R)
  (X : matrix) (U V : vector) :
  fitted clayton = true -> theta clayton = Fin tc -> -1 <= tc -> tc <> 0 ->
  fitted gumbel = true -> theta gumbel = Fin tg -> 1 <= tg ->
  split_matrix X = Ok (U, V) ->
  (exists r, Clayton.cumulative_distribution clayton X = Ok r /\
             Forall2 corner_rule (combine U V) r) /\
  (exists r, Gumbel.cumulative_distribution gumbel X = Ok r /\
             Forall2 corner_rule (combine U V) r) /\
  (exists r, Independence.cumulative_distribution independence X = Ok r /\
             Forall2 corner_rule (combine U V) r).
Proof.
  intros Hc Hthc Htc Htc0 Hg Hthg Htg HX.
  destruct (split_matrix_length X U V HX) as [HU HV].
  assert (Hlen : length U = length V) by congruence.
  repeat split.
  - unfold Clayton.cumulative_distribution, check_fit.
    rewrite Hc, HX; cbn [bind].
    destruct (all_eq V 0 || all_eq U 0) eqn:E.
    + eexists. split; [reflexivity |].
      rewrite <- (combine_length_same U V Hlen).
      apply forall2_zeros_in. intros [u v] Hin. split.
      * intros [= -> ->]. destruct (zero_column_has_no_one U V E Hin).
      * reflexivity.
    + eexists. split; [reflexivity |]. rewrite map_map.
      apply forall2_map_right. intros [u v]. apply clayton_entry_corner.
  - unfold Gumbel.cumulative_distribution, check_fit.
    rewrite Hg, Hthg, HX; cbn [bind feqb].
    destruct (Reqb tg 1) eqn:E.
    + rewrite broadcast_same_length, zip_with_combine by exact Hlen.
      eexists. split; [reflexivity |].
      apply forall2_map_right. intros [u v]. apply product_entry_corner.
    + apply Reqb_neq in E. unfold Gumbel.neg_log, vscalar_r.
      rewrite !map_map.
      rewrite broadcast_same_length by (rewrite !length_map; exact Hlen).
      cbn [bind]. rewrite zip_with_combine, combine_map_same, !map_map.
      eexists. split; [reflexivity |].
      apply forall2_map_right. intros [u v]. cbn [fst snd]. split.
      * intros [= -> ->]. apply gumbel_entry_one. lra.
      * intros a Ha Huv. apply (gumbel_entry_zero tg a); [lra | exact Ha | exact Huv].
  - unfold Independence.cumulative_distribution. rewrite HX; cbn [bind].
    rewrite broadcast_same_length, zip_with_combine by exact Hlen.
    eexists. split; [reflexivity |].
    apply forall2_map_right. intros [u v]. apply product_entry_corner.
Qed.

Lemma cumulative_distribution_corners_witness :
  (exists r,
     Clayton.cumulative_distribution (mkBivariate (Fin 2) (Fin (1/2)) true)
       [[Fin (1/2); Fin 0]; [Fin 1; Fin 1]; [Fin (1/3); Fin (1/4)]] = Ok r /\
     Forall2 corner_rule
       (combine [Fin (1/2); Fin 1; Fin (1/3)] [Fin 0; Fin 1; Fin (1/4)]) r) /\
  (exists r,
     Gumbel.cumulative_distribution (mkBivariate (Fin 2) (Fin (1/2)) true)
       [[Fin (1/2); Fin 0]; [Fin 1; Fin 1]; [Fin (1/3); Fin (1/4)]] = Ok r /\
     Forall2 corner_rule
       (combine [Fin (1/2); Fin 1; Fin (1/3)] [Fin 0; Fin 1; Fin (1/4)]) r) /\
  (exists r,
     Independence.cumulative_distribution unfitted
       [[Fin (1/2); Fin 0]; [Fin 1; Fin 1]; [Fin (1/3); Fin (1/4)]] = Ok r /\
     Forall2 corner_rule
       (combine [Fin (1/2); Fin 1; Fin (1/3)] [Fin 0; Fin 1; Fin (1/4)]) r).
Proof.
  apply (cumulative_distribution_corners
           (mkBivariate (Fin 2) (Fin (1/2)) true)
           (mkBivariate (Fin 2) (Fin (1/2)) true) unfitted 2 2
           [[Fin (1/2); Fin 0]; [Fin 1; Fin 1]; [Fin (1/3); Fin (1/4)]]
           [Fin (1/2); Fin 1; Fin (1/3)] [Fin 0; Fin 1; Fin (1/4)]);
    solve [reflexivity | lra].
Defined.

(** ** Clayton's distribution function below theta = 0 *)

Lemma Int_part_2 : Int_part 2 = 2%Z.
Proof. symmetry. apply Int_part_spec. simpl. lra. Qed.

Lemma Rpower_sixteenth_half : Rpower (1/16) (- (-1/2)) = 1/4.
Proof.
  replace (- (-1/2)) with (/ 2) by lra.
  rewrite Rpower_sqrt by lra.
  apply sqrt_lem_1; lra.
Qed.

Lemma normal_quarter : normal (1/4).
Proof. unfold normal, float_min_normal, float_max. lra. Qed.

Lemma power_neg_half_two : (Fin (-1/2) ** Fin 2)%f64 = Fin (1/4).
Proof.
  unfold power; cbn [feqb]. rcompare. unfold power_fin, is_int. rcompare.
  rewrite Int_part_2. rcompare.
  replace (powerRZ (-1/2) 2) with (1/4) by (simpl; lra).
  apply finite_result_normal, normal_quarter.
Qed.

(** C2 (the code at the failing input).  For a fitted Clayton with
    theta = -1/2 and the single pair (1/16, 1/16), the base of the power is
    1/4 + 1/4 - 1 = -1/2 and the exponent is 2.  The code raises the
    negative base to the power and clamps afterwards, which gives 1/4; the
    documented formula clamps the base first, which gives 0. *)
Theorem clayton_cdf_clamps_after_power :
  Clayton.cumulative_distribution
    (mkBivariate (Fin (-1/2)) (Fin (-1/3)) true) [[Fin (1/16); Fin (1/16)]]
    = Ok [Fin (1/4)] /\
  Clayton.cdf_documented (Fin (-1/2)) (Fin (1/16)) (Fin (1/16)) = Fin 0 /\
  Clayton.compute_theta (mkBivariate NaN (Fin (-1/3)) false) = Fin (-1/2).
Proof.
  assert (Hbase : ((Fin (1/16)) ** (- Fin (-1/2)) + (Fin (1/16)) ** (- Fin (-1/2))
                   - 1)%f64 = Fin (-1/2)).
  { unfold power; cbn [feqb fneg]. rcompare. unfold power_fin. rcompare.
    rewrite Rpower_sixteenth_half, (finite_result_normal _ normal_quarter).
    cbn [fadd fsub fneg]. f_equal. lra. }
  assert (Hexp : (Fin (-1) / Fin (-1/2))%f64 = Fin 2).
  { rewrite fdiv_fin by lra. f_equal. lra. }
  repeat split.
  - unfold Clayton.cumulative_distribution. cbn. rcompare. cbn.
    unfold Clayton.cdf_entry. cbn [theta fgtb fltb]. rcompare.
    cbn [andb]. rewrite Hbase, Hexp, power_neg_half_two.
    unfold py_max; simpl. rcompare. reflexivity.
  - unfold Clayton.cdf_documented. rewrite Hbase, Hexp.
    unfold py_max; simpl. rcompare. apply power_zero_pos. lra.
  - unfold Clayton.compute_theta; simpl. rcompare. f_equal. field.
Qed.
(** ** Real-number facts about powers *)

Lemma exp_le_mono (x y : R) : x <= y -> Rtrigo_def.exp x <= Rtrigo_def.exp y.
Proof.
  intros [H | ->]; [left; apply exp_increasing; exact H | right; reflexivity].
Qed.

Lemma ln_le_mono (x y : R) : 0 < x -> x <= y -> ln x <= ln y.
Proof.
  intros Hx [H | ->]; [left; apply ln_increasing; assumption | right; reflexivity].
Qed.

Lemma ln_unit_nonpos (u : R) : 0 < u <= 1 -> ln u <= 0.
Proof. intros [H0 H1]. rewrite <- ln_1. apply ln_le_mono; assumption. Qed.

Lemma ln_ge_1_nonneg (b : R) : 1 <= b -> 0 <= ln b.
Proof. intros H. rewrite <- ln_1. apply ln_le_mono; lra. Qed.

(** A value of (0, 1] to a power that is not positive is at least 1. *)
Lemma Rpower_unit_nonpos (u e : R) : 0 < u <= 1 -> e <= 0 -> 1 <= Rpower u e.
Proof.
  intros Hu He. unfold Rpower. rewrite <- exp_0. apply exp_le_mono.
  pose proof (ln_unit_nonpos u Hu). nra.
Qed.

(** A value of at least 1 to a power that is not positive is at most 1. *)
Lemma Rpower_ge_1_nonpos (b e : R) : 1 <= b -> e <= 0 -> Rpower b e <= 1.
Proof.
  intros Hb He. unfold Rpower. rewrite <- exp_0. apply exp_le_mono.
  pose proof (ln_ge_1_nonneg b Hb). nra.
Qed.

(** A power that is not positive reverses the order of its bases. *)
Lemma Rpower_antitone (a b c : R) :
  0 < a <= b -> c <= 0 -> Rpower b c <= Rpower a c.
Proof.
  intros [Ha Hab] Hc. unfold Rpower. apply exp_le_mono.
  pose proof (ln_le_mono a b Ha Hab). nra.
Qed.

Lemma Rpower_inverse_exponents (x t : R) :
  0 < x -> t <> 0 -> Rpower (Rpower x (- t)) (-1 / t) = x.
Proof.
  intros Hx Ht. rewrite Rpower_mult.
  replace (- t * (-1 / t)) with 1 by (field; exact Ht).
  apply Rpower_1, Hx.
Qed.

Lemma Rpower_gt_1 (y e : R) : 0 < y < 1 -> e < 0 -> 1 < Rpower y e.
Proof.
  intros [H0 H1] He. unfold Rpower. rewrite <- exp_0.
  apply exp_increasing.
  pose proof (ln_increasing y 1 H0 H1) as H. rewrite ln_1 in H. nra.
Qed.

Lemma Rpower_gt_1_neg (q e : R) : 1 < q -> e < 0 -> Rpower q e < 1.
Proof.
  intros Hq He. unfold Rpower. rewrite <- exp_0. apply exp_increasing.
  pose proof (ln_increasing 1 q Rlt_0_1 Hq) as H. rewrite ln_1 in H. nra.
Qed.

Lemma Rpower_unit_pos (r k : R) : 0 < r < 1 -> 0 < k -> Rpower r k < 1.
Proof.
  intros [H0 H1] Hk. unfold Rpower.
  apply Rlt_le_trans with (Rtrigo_def.exp 0); [| rewrite exp_0; lra].
  apply exp_increasing.
  pose proof (ln_increasing r 1 H0 H1) as H. rewrite ln_1 in H. nra.
Qed.

Lemma neg_ln_pos (x : R) : 0 < x < 1 -> 0 < - ln x.
Proof.
  intros [H0 H1]. pose proof (ln_increasing x 1 H0 H1) as H.
  rewrite ln_1 in H. lra.
Qed.

Lemma clayton_round_trip_real (t y v : R) :
  0 < t -> 0 < y < 1 -> 0 < v < 1 ->
  let a := Rpower y (t / (-1 + - t)) in
  let b := Rpower v t in
  let q := (a + b + - (1)) / b in
  let u := Rpower q (-1 / t) in
  0 < q /\
  0 < Rpower v (- t) + Rpower u (- t) + - (1) /\
  Rpower v (- t + - (1))
  * Rpower (Rpower v (- t) + Rpower u (- t) + - (1)) ((-1 + - t) / t) + - 0 = y.
Proof.
  intros Ht Hy Hv a b q u.
  assert (Hb : 0 < b) by apply Rpower_pos.
  assert (He1 : t / (-1 + - t) < 0).
  { apply Ropp_lt_cancel. rewrite Ropp_0.
    replace (- (t / (-1 + - t))) with (t / (1 + t)) by (field; lra).
    apply Rdiv_lt_0_compat; lra. }
  assert (Ha : 1 < a) by (apply Rpower_gt_1; assumption).
  assert (Hq : 0 < q).
  { unfold q. apply Rdiv_lt_0_compat; lra. }
  split; [exact Hq |].
  assert (Hu : Rpower u (- t) = q).
  { unfold u. rewrite Rpower_mult.
    replace (-1 / t * - t) with 1 by (field; lra).
    apply Rpower_1. exact Hq. }
  assert (Hvi : Rpower v (- t) = / b) by apply Rpower_Ropp.
  rewrite Hu, Hvi.
  replace (/ b + q + - (1)) with (a * / b) by (unfold q; field; lra).
  assert (Hib : 0 < / b) by (apply Rinv_0_lt_compat; exact Hb).
  split; [apply Rmult_lt_0_compat; lra |].
  rewrite <- Rpower_mult_distr by (try apply Rinv_0_lt_compat; lra).
  unfold a at 1. rewrite Rpower_mult.
  replace (t / (-1 + - t) * ((-1 + - t) / t)) with 1 by (field; lra).
  rewrite Rpower_1 by lra.
  rewrite <- Hvi, Rpower_mult.
  rewrite (Rmult_comm y), <- Rmult_assoc, <- Rpower_plus.
  replace (- t + - (1) + - t * ((-1 + - t) / t)) with 0 by (field; lra).
  rewrite Rpower_O by lra. lra.
Qed.
Lemma clayton_percent_point_real (t y v : R) :
  0 < t -> 0 < y < 1 -> 0 < v < 1 ->
  let q := (Rpower y (t / (-1 + - t)) + Rpower v t + - (1)) / Rpower v t in
  1 < q /\ 0 < Rpower q (-1 / t) < 1.
Proof.
  intros Ht Hy Hv q.
  pose proof (Rpower_pos v t) as Hb.
  assert (He1 : t / (-1 + - t) < 0).
  { apply Ropp_lt_cancel. rewrite Ropp_0.
    replace (- (t / (-1 + - t))) with (t / (1 + t)) by (field; lra).
    apply Rdiv_lt_0_compat; lra. }
  pose proof (Rpower_gt_1 y _ Hy He1) as Ha.
  assert (Hq : 1 < q).
  { unfold q. apply Rmult_lt_reg_r with (Rpower v t); [exact Hb |].
    unfold Rdiv. rewrite Rmult_assoc, Rinv_l by lra. lra. }
  split; [exact Hq |]. split; [apply Rpower_pos |].
  apply Rpower_gt_1_neg; [exact Hq |].
  replace (-1 / t) with (- (1 / t)) by (field; lra).
  pose proof (Rinv_pos_div t Ht). lra.
Qed.



(** ** Powers that stay in range *)

(** A positive base to a power whose exact value is in the normal range:
    [np.power] returns that value. *)
Lemma power_normal (a b : R) :
  0 < a -> normal (Rpower a b) -> (Fin a ** Fin b)%f64 = Fin (Rpower a b).
Proof.
  intros Ha Hn. unfold power; cbn [feqb].
  destruct (Reqb b 0) eqn:Eb.
  - apply Reqb_eq in Eb. subst b. rewrite Rpower_O by exact Ha. reflexivity.
  - destruct (Reqb a 1) eqn:Ea.
    + apply Reqb_eq in Ea. subst a. unfold Rpower. rewrite ln_1, Rmult_0_r, exp_0.
      reflexivity.
    + unfold power_fin. rcompare. apply finite_result_normal, Hn.
Qed.


Lemma normal_inv (x : R) : float_min_normal <= x -> / x <= float_max.
Proof.
  intros Hx. pose proof float_min_normal_pos as He.
  pose proof float_range_reciprocal as HM.
  pose proof (Rinv_le_contravar _ _ He Hx) as Hi.
  pose proof (Rinv_0_lt_compat _ He) as Hie.
  unfold Rdiv in HM. lra.
Qed.

Lemma normal_unit (x : R) : float_min_normal <= x -> x <= 1 -> normal x.
Proof. intros Hlo Hhi. pose proof normal_one as [_ H1]. split; lra. Qed.

Lemma normal_above_one (x : R) : 1 <= x -> x <= float_max -> normal x.
Proof. intros Hlo Hhi. pose proof normal_one as [H1 _]. split; lra. Qed.

(** A base below 1 gives smaller powers for larger exponents. *)
Lemma Rpower_unit_exponent_antitone (y e e' : R) :
  0 < y < 1 -> e' <= e -> Rpower y e <= Rpower y e'.
Proof.
  intros Hy He. unfold Rpower. apply exp_le_mono.
  pose proof (neg_ln_pos y Hy). nra.
Qed.

Lemma Rinv_unit (x : R) : 0 < x <= 1 -> 1 <= / x.
Proof.
  intros Hx. rewrite <- Rinv_1 at 1. apply Rinv_le_contravar; lra.
Qed.

Lemma Rpower_inv_1 (y : R) : 0 < y -> Rpower y (-1) = / y.
Proof.
  intros Hy. replace (-1) with (- (1)) by lra.
  rewrite Rpower_Ropp, Rpower_1 by exact Hy. reflexivity.
Qed.

(** The intermediate powers of Clayton's [percent_point] at (y, v) and of
    [partial_derivative] at the resulting pair stay in the normal range as
    soon as y v v^theta does. *)
Lemma clayton_round_trip_range (t y v : R) :
  0 < t -> 0 < y < 1 -> 0 < v < 1 ->
  float_min_normal <= y * v * Rpower v t ->
  let a := Rpower y (t / (-1 + - t)) in
  let b := Rpower v t in
  let q := (a + b + - (1)) / b in
  let u := Rpower q (-1 / t) in
  let B := Rpower v (- t) + Rpower u (- t) + - (1) in
  normal a /\ normal b /\ (normal u /\ y * v <= u < 1) /\
  normal (Rpower v (- t + - (1))) /\ normal (Rpower v (- t)) /\
  normal (Rpower u (- t)) /\ 0 < B /\ normal (Rpower B ((-1 + - t) / t)).
Proof.
  intros Ht Hy Hv Hr a b q u B.
  pose proof float_min_normal_pos as He.
  destruct (clayton_round_trip_real t y v Ht Hy Hv) as [Hq0 [HB Hrt]].
  destruct (clayton_percent_point_real t y v Ht Hy Hv) as [Hq1 [Hu0 Hu1]].
  fold a b q in Hq0, Hq1, Hu0, Hu1, HB, Hrt. fold u in Hu0, Hu1, HB, Hrt.
  fold B in HB, Hrt.
  assert (Hb0 : 0 < b) by apply Rpower_pos.
  assert (Hb1 : b < 1) by (apply Rpower_unit_pos; lra).
  fold b in Hr.
  assert (Hyv : 0 < y * v < 1) by nra.
  assert (Hvb : 0 < v * b < 1) by nra.
  assert (Hyb : 0 < y * b < 1) by nra.
  assert (Hbe : float_min_normal <= b).
  { apply Rle_trans with (y * v * b); [exact Hr | nra]. }
  assert (Hye : float_min_normal <= y).
  { apply Rle_trans with (y * v * b); [exact Hr |].
    replace (y * v * b) with (y * (v * b)) by ring. nra. }
  assert (Hybe : float_min_normal <= y * b).
  { apply Rle_trans with (y * v * b); [exact Hr |].
    replace (y * v * b) with (v * (y * b)) by ring. nra. }
  assert (Hvbe : float_min_normal <= b * v).
  { apply Rle_trans with (y * v * b); [exact Hr |].
    replace (y * v * b) with (y * (b * v)) by ring. nra. }
  assert (Hyve : float_min_normal <= y * v).
  { apply Rle_trans with (y * v * b); [exact Hr | nra]. }
  assert (He1lt : t / (-1 + - t) < 0).
  { apply Ropp_lt_cancel. rewrite Ropp_0.
    replace (- (t / (-1 + - t))) with (t / (1 + t)) by (field; lra).
    apply Rdiv_lt_0_compat; lra. }
  assert (He1ge : -1 <= t / (-1 + - t)).
  { replace (t / (-1 + - t)) with (-1 + 1 / (1 + t)) by (field; lra).
    pose proof (Rinv_pos_div (1 + t)). lra. }
  assert (Ha1 : 1 < a) by (apply Rpower_gt_1; assumption).
  assert (Ha2 : a <= / y).
  { rewrite <- Rpower_inv_1 by lra.
    apply Rpower_unit_exponent_antitone; assumption. }
  assert (Hqb : q * b = a + b + - (1)) by (unfold q; field; lra).
  assert (Hiy : 0 < / y) by (apply Rinv_0_lt_compat; lra).
  assert (Hib : 0 < / b) by (apply Rinv_0_lt_compat; lra).
  assert (Hqab : q <= a * / b).
  { apply Rmult_le_reg_r with b; [exact Hb0 |].
    rewrite Hqb, Rmult_assoc, Rinv_l by lra. lra. }
  assert (Hqm : q <= float_max).
  { apply Rle_trans with (/ (y * b)); [| apply normal_inv; exact Hybe].
    rewrite Rinv_mult. apply Rle_trans with (a * / b); [exact Hqab |].
    apply Rmult_le_compat_r; lra. }
  (* the result u *)
  assert (Hc : -1 / t <= 0).
  { replace (-1 / t) with (- (1 / t)) by (field; lra).
    pose proof (Rinv_pos_div t Ht). lra. }
  assert (Huyv : y * v <= u).
  { apply Rle_trans with (Rpower (a * / b) (-1 / t)).
    - rewrite <- Rpower_mult_distr by lra.
      unfold a at 1. rewrite Rpower_mult.
      replace (t / (-1 + - t) * (-1 / t)) with (1 / (1 + t)) by (field; lra).
      unfold b. rewrite <- Rpower_Ropp, Rpower_mult.
      replace (- t * (-1 / t)) with 1 by (field; lra).
      rewrite Rpower_1 by lra.
      apply Rmult_le_compat_r; [lra |].
      rewrite <- (Rpower_1 y) at 1 by lra.
      apply Rpower_unit_exponent_antitone; [exact Hy |].
      apply Rmult_le_reg_r with (1 + t); [lra |].
      unfold Rdiv. rewrite Rmult_assoc, Rinv_l by lra. lra.
    - apply Rpower_antitone; [split; [exact Hq0 | exact Hqab] | exact Hc]. }
  assert (HA : Rpower v (- t + - (1)) = / (b * v)).
  { replace (- t + - (1)) with (- (t + 1)) by lra.
    rewrite Rpower_Ropp, Rpower_plus, Rpower_1 by lra. reflexivity. }
  assert (Hpv : Rpower v (- t) = / b) by apply Rpower_Ropp.
  assert (Hpu : Rpower u (- t) = q).
  { unfold u. rewrite Rpower_mult.
    replace (-1 / t * - t) with 1 by (field; lra).
    apply Rpower_1. exact Hq0. }
  assert (Hbv1 : b * v < 1) by nra.
  assert (Hbv0 : 0 < b * v) by nra.
  assert (Hh : Rpower B ((-1 + - t) / t) = y * (b * v)).
  { rewrite HA in Hrt.
    apply Rmult_eq_reg_l with (/ (b * v));
      [| apply Rinv_neq_0_compat; lra].
    rewrite <- Rmult_assoc, (Rmult_comm _ y), Rmult_assoc, Rinv_l by lra.
    lra. }
  repeat split.
  - lra.
  - apply Rle_trans with (/ y); [exact Ha2 | apply normal_inv; exact Hye].
  - exact Hbe.
  - pose proof normal_one as [_ H1]. lra.
  - lra.
  - pose proof normal_one as [_ H1]. lra.
  - exact Huyv.
  - exact Hu1.
  - rewrite HA. pose proof (Rinv_unit (b * v)). lra.
  - rewrite HA. apply normal_inv. exact Hvbe.
  - rewrite Hpv. pose proof (Rinv_unit b). lra.
  - rewrite Hpv. apply normal_inv. exact Hbe.
  - rewrite Hpu. lra.
  - rewrite Hpu. exact Hqm.
  - exact HB.
  - rewrite Hh. replace (y * (b * v)) with (y * v * b) by ring. exact Hr.
  - rewrite Hh. pose proof normal_one as [_ H1]. nra.
Qed.

(** ** Shapes of the results *)

Lemma zip_with_length f (U V : vector) :
  length U = length V -> length (zip_with f U V) = length U.
Proof.
  revert V. induction U as [|u U IH]; intros [|v V] H; simpl in *;
    try discriminate; trivial.
  f_equal. apply IH. congruence.
Qed.

Lemma broadcast_ok f (U V : vector) :
  length U = length V ->
  exists W, broadcast f U V = Ok W /\ length W = length U.
Proof.
  intros H. exists (zip_with f U V). split.
  - apply broadcast_same_length, H.
  - apply zip_with_length, H.
Qed.

Lemma vscalar_r_length f (U : vector) c : length (vscalar_r f U c) = length U.
Proof. apply length_map. Qed.

Lemma vscalar_l_length f c (U : vector) : length (vscalar_l f c U) = length U.
Proof. apply length_map. Qed.

Lemma neg_log_length (U : vector) : length (Gumbel.neg_log U) = length U.
Proof. apply length_map. Qed.

(** Binds one broadcast of the goal to its result [W], of known length. *)
Ltac step_broadcast W HW :=
  match goal with
  | |- context [broadcast ?f ?A ?B] =>
      let E := fresh "E" in
      destruct (broadcast_ok f A B) as [W [E HW]];
      [ repeat rewrite ?vscalar_r_length, ?vscalar_l_length, ?neg_log_length,
          ?length_map; congruence
      | rewrite E; cbn [bind];
        repeat rewrite ?vscalar_r_length, ?vscalar_l_length, ?neg_log_length,
          ?length_map in HW ]
  end.

Lemma gumbel_cdf_shape (self : Bivariate) (X : matrix) (U V : vector) :
  fitted self = true -> split_matrix X = Ok (U, V) ->
  exists r, Gumbel.cumulative_distribution self X = Ok r /\
            length r = length X.
Proof.
  intros Hfit HX. destruct (split_matrix_length X U V HX) as [HU HV].
  unfold Gumbel.cumulative_distribution, check_fit.
  rewrite Hfit, HX; cbn [bind].
  destruct (feqb (theta self) 1).
  - step_broadcast W HW. exists W. split; [reflexivity | congruence].
  - step_broadcast W HW. eexists. split; [reflexivity |].
    rewrite !length_map, vscalar_r_length. congruence.
Qed.

Lemma fsub_zero_then (x y : float64) : (x - 0 - y)%f64 = (x - y)%f64.
Proof.
  destruct x, y; simpl; try reflexivity. f_equal. lra.
Qed.

Lemma offset_after_zero (W : vector) (y : float64) :
  ((W .- 0) .- y)%f64 = (W .- y)%f64.
Proof.
  unfold vscalar_r. rewrite map_map. apply map_ext. intros x.
  apply fsub_zero_then.
Qed.


(** ** The round trip *)




(** * Further properties of the evaluators *)

(** ** One entry per row *)

(** On a fitted instance and a matrix of two columns, every evaluator that
    takes a matrix returns an array with one entry per row: no broadcast
    fails. *)
Theorem evaluators_return_one_entry_per_row
  (self : Bivariate) (X : matrix) (U V : vector) (y : float64) :
  fitted self = true -> split_matrix X = Ok (U, V) ->
  (exists r, Clayton.cumulative_distribution self X = Ok r /\
             length r = length X) /\
  (exists r, Clayton.probability_density self X = Ok r /\
             length r = length X) /\
  (exists r, Clayton.partial_derivative self X y = Ok r /\
             length r = length X) /\
  (exists r, Gumbel.cumulative_distribution self X = Ok r /\
             length r = length X) /\
  (exists r, Gumbel.probability_density self X = Ok r /\
             length r = length X) /\
  (exists r, Gumbel.partial_derivative self X y = Ok r /\
             length r = length X) /\
  (exists r, Independence.cumulative_distribution self X = Ok r /\
             length r = length X).
Proof.
  intros Hfit HX. destruct (split_matrix_length X U V HX) as [HU HV].
  pose proof (gumbel_cdf_shape self X U V Hfit HX) as [p [Hp Hlp]].
  repeat split.
  - unfold Clayton.cumulative_distribution, check_fit.
    rewrite Hfit, HX; cbn [bind].
    destruct (all_eq V 0 || all_eq U 0).
    + eexists. split; [reflexivity |]. unfold zeros. rewrite repeat_length. exact HV.
    + eexists. split; [reflexivity |].
      rewrite !length_map, length_combine. rewrite HU, HV. apply Nat.min_id.
  - unfold Clayton.probability_density, check_fit.
    rewrite Hfit, HX; cbn [bind].
    step_broadcast W1 H1. step_broadcast W2 H2. step_broadcast W3 H3.
    exists W3. split; [reflexivity | congruence].
  - unfold Clayton.partial_derivative, check_fit.
    rewrite Hfit, HX; cbn [bind].
    destruct (feqb (theta self) 0).
    + exists V. split; [reflexivity | exact HV].
    + step_broadcast W1 H1. step_broadcast W2 H2.
      eexists. split; [reflexivity |]. rewrite vscalar_r_length. congruence.
  - exists p. split; assumption.
  - unfold Gumbel.probability_density, check_fit.
    rewrite Hfit, HX; cbn [bind].
    destruct (feqb (theta self) 1).
    + step_broadcast W HW. exists W. split; [reflexivity | congruence].
    + step_broadcast W1 H1. step_broadcast W2 H2. step_broadcast W3 H3.
      rewrite Hp; cbn [bind].
      step_broadcast W4 H4. step_broadcast W5 H5. step_broadcast W6 H6.
      step_broadcast W7 H7.
      exists W7. split; [reflexivity | congruence].
  - unfold Gumbel.partial_derivative, check_fit.
    rewrite Hfit, HX; cbn [bind].
    destruct (feqb (theta self) 1).
    + exists V. split; [reflexivity | exact HV].
    + rewrite Hp; cbn [bind].
      step_broadcast W1 H1. step_broadcast W2 H2. step_broadcast W3 H3.
      step_broadcast W4 H4.
      eexists. split; [reflexivity |]. rewrite vscalar_r_length. congruence.
  - unfold Independence.cumulative_distribution. rewrite HX; cbn [bind].
    step_broadcast W HW. exists W. split; [reflexivity | congruence].
Qed.

Lemma evaluators_return_one_entry_per_row_witness :
  exists r,
    Gumbel.probability_density (mkBivariate (Fin 2) (Fin (1/2)) true)
      [[Fin (1/2); Fin (1/3)]; [Fin (1/4); Fin (1/5)]] = Ok r /\
    length r = 2%nat.
Proof.
  apply (evaluators_return_one_entry_per_row
           (mkBivariate (Fin 2) (Fin (1/2)) true)
           [[Fin (1/2); Fin (1/3)]; [Fin (1/4); Fin (1/5)]]
           [Fin (1/2); Fin (1/4)] [Fin (1/3); Fin (1/5)] (Fin 0));
    reflexivity.
Defined.

(** ** Clayton's distribution function *)

Lemma py_max_zero_not_negative (x : float64) : fltb (py_max x 0) 0 = false.
Proof.
  unfold py_max, fgtb. destruct (fltb x 0) eqn:E; [| exact E].
  simpl. rcompare. reflexivity.
Qed.

(** No entry of Clayton's [cumulative_distribution] compares below 0,
    whatever the parameter and the matrix are. *)
Theorem clayton_cdf_never_negative (self : Bivariate) (X : matrix) (r : vector) :
  Clayton.cumulative_distribution self X = Ok r ->
  Forall (fun e => fltb e 0 = false) r.
Proof.
  unfold Clayton.cumulative_distribution.
  destruct (check_fit self); cbn [bind]; [| discriminate].
  destruct (split_matrix X) as [[U V]|e]; cbn [bind]; [| discriminate].
  destruct (all_eq V 0 || all_eq U 0); intros [= <-].
  - unfold zeros. apply Forall_forall. intros e He.
    apply repeat_spec in He. subst e. simpl. rcompare. reflexivity.
  - apply Forall_forall. intros e He. apply in_map_iff in He.
    destruct He as [x [<- _]]. apply py_max_zero_not_negative.
Qed.

Lemma clayton_cdf_never_negative_witness :
  Forall (fun e => fltb e 0 = false) [Fin 1].
Proof.
  apply (clayton_cdf_never_negative (mkBivariate (Fin 2) (Fin (1/2)) true)
           [[Fin 1; Fin 1]] [Fin 1]).
  apply (clayton_cdf_one_one _ 2); reflexivity.
Defined.

Lemma forall2_zeros (P : float64 * float64 -> float64 -> Prop)
  (L : list (float64 * float64)) :
  (forall p, P p (Fin 0)) -> Forall2 P L (zeros (length L)).
Proof.
  intros HP. induction L as [|p L IH]; simpl; constructor; auto.
Qed.

(** Clayton's degenerate cases.  A pair whose u or v is not above 0 (zero,
    negative or NaN) has the entry 0; and when a whole column is 0 the
    result is the zero array with one entry per row. *)
Theorem clayton_cdf_degenerate
  (self : Bivariate) (X : matrix) (U V r : vector) :
  Clayton.cumulative_distribution self X = Ok r ->
  split_matrix X = Ok (U, V) ->
  Forall2 (fun uv e => fgtb (fst uv) 0 && fgtb (snd uv) 0 = false -> e = Fin 0)
          (combine U V) r /\
  (all_eq V 0 = true \/ all_eq U 0 = true -> r = zeros (length X)).
Proof.
  intros Hr HX. destruct (split_matrix_length X U V HX) as [HU HV].
  unfold Clayton.cumulative_distribution in Hr.
  destruct (check_fit self); cbn [bind] in Hr; [| discriminate].
  rewrite HX in Hr; cbn [bind] in Hr.
  destruct (all_eq V 0 || all_eq U 0) eqn:E; injection Hr as <-.
  - split; [| rewrite HV; reflexivity].
    rewrite <- (combine_length_same U V) by congruence.
    apply forall2_zeros. reflexivity.
  - split.
    + rewrite map_map. apply forall2_map_right. intros [u v] H.
      unfold Clayton.cdf_entry. cbn [fst snd] in *. rewrite H.
      unfold py_max, fgtb; simpl. rcompare. reflexivity.
    + apply orb_false_iff in E. intros [H | H]; rewrite H in E;
        destruct E; discriminate.
Qed.

Lemma clayton_cdf_degenerate_witness :
  Forall2 (fun uv e => fgtb (fst uv) 0 && fgtb (snd uv) 0 = false -> e = Fin 0)
          (combine [NaN] [Fin 0]) [Fin 0] /\
  (all_eq [Fin 0] 0 = true \/ all_eq [NaN] 0 = true -> [Fin 0] = zeros 1).
Proof.
  apply (clayton_cdf_degenerate (mkBivariate (Fin 2) (Fin (1/2)) true)
           [[NaN; Fin 0]] [NaN] [Fin 0] [Fin 0]).
  - apply clayton_cdf_zero_r. reflexivity.
  - reflexivity.
Defined.

(** ** Columns of pairs *)

Lemma forall2_map_right_in (A B : Type) (P : A -> B -> Prop) (g : A -> B)
  (L : list A) :
  (forall a, In a L -> P a (g a)) -> Forall2 P L (map g L).
Proof.
  induction L as [|a L IH]; intros HP; simpl; constructor.
  - apply HP. left. reflexivity.
  - apply IH. intros b Hb. apply HP. right. exact Hb.
Qed.

Lemma split_pairs_matrix (l : list (R * R)) :
  split_matrix (pairs_matrix l) = Ok (column_u l, column_v l).
Proof.
  induction l as [|p l IH]; [reflexivity |].
  simpl. fold (pairs_matrix l). rewrite IH. reflexivity.
Qed.

Lemma combine_columns (l : list (R * R)) :
  combine (column_u l) (column_v l)
  = map (fun p => (Fin (fst p), Fin (snd p))) l.
Proof. induction l as [|p l IH]; simpl; [| rewrite IH]; reflexivity. Qed.

Lemma columns_not_all_zero (p : R * R) (l : list (R * R)) :
  0 < fst p -> 0 < snd p ->
  all_eq (column_v (p :: l)) 0 || all_eq (column_u (p :: l)) 0 = false.
Proof. intros Hu Hv. simpl. rcompare. reflexivity. Qed.

Lemma zip_with_map (A : Type) f (g h : A -> float64) (l : list A) :
  zip_with f (map g l) (map h l) = map (fun a => f (g a) (h a)) l.
Proof. induction l as [|a l IH]; simpl; [| rewrite IH]; reflexivity. Qed.

Lemma broadcast_map (A : Type) f (g h : A -> float64) (l : list A) :
  broadcast f (map g l) (map h l) = Ok (map (fun a => f (g a) (h a)) l).
Proof.
  rewrite broadcast_same_length by (rewrite !length_map; reflexivity).
  rewrite zip_with_map. reflexivity.
Qed.

(** Rewrites the array operations on mapped columns into one [map]. *)
Ltac columns :=
  unfold column_u, column_v, vscalar_r, vscalar_l, Gumbel.neg_log;
  repeat (rewrite ?map_map; rewrite ?broadcast_map; cbn [bind]).

(** Clayton's formula on the reals, for theta > 0 and a pair of (0, 1]. *)
Lemma clayton_cdf_real (t u v : R) :
  0 < t -> 0 < u <= 1 -> 0 < v <= 1 ->
  let base := Rpower u (- t) + Rpower v (- t) + - (1) in
  1 <= base /\
  0 < Rpower base (-1 / t) <= 1 /\
  Rpower base (-1 / t) <= u /\ Rpower base (-1 / t) <= v.
Proof.
  intros Ht Hu Hv base.
  assert (Hpu : 1 <= Rpower u (- t)) by (apply Rpower_unit_nonpos; lra).
  assert (Hpv : 1 <= Rpower v (- t)) by (apply Rpower_unit_nonpos; lra).
  assert (He : -1 / t <= 0).
  { replace (-1 / t) with (- (1 / t)) by (field; lra).
    pose proof (Rinv_pos_div t Ht). lra. }
  assert (Hbase : 1 <= base) by (unfold base; lra).
  repeat split.
  - exact Hbase.
  - apply Rpower_pos.
  - apply Rpower_ge_1_nonpos; assumption.
  - apply Rle_trans with (Rpower (Rpower u (- t)) (-1 / t)).
    + apply Rpower_antitone; [unfold base; lra | exact He].
    + rewrite Rpower_inverse_exponents by lra. lra.
  - apply Rle_trans with (Rpower (Rpower v (- t)) (-1 / t)).
    + apply Rpower_antitone; [unfold base; lra | exact He].
    + rewrite Rpower_inverse_exponents by lra. lra.
Qed.

(** ** Clayton's distribution function on the unit square *)

(** Clayton's value is at least the product u v. *)
Lemma clayton_cdf_above_product (t u v : R) :
  0 < t -> 0 < u <= 1 -> 0 < v <= 1 ->
  u * v <= Rpower (Rpower u (- t) + Rpower v (- t) + - (1)) (-1 / t).
Proof.
  intros Ht Hu Hv.
  destruct (clayton_cdf_real t u v Ht Hu Hv) as [Hb _].
  assert (Hpu : 1 <= Rpower u (- t)) by (apply Rpower_unit_nonpos; lra).
  assert (Hpv : 1 <= Rpower v (- t)) by (apply Rpower_unit_nonpos; lra).
  assert (Huv : 0 < u * v) by nra.
  assert (He : -1 / t <= 0).
  { replace (-1 / t) with (- (1 / t)) by (field; lra).
    pose proof (Rinv_pos_div t Ht). lra. }
  rewrite <- (Rpower_inverse_exponents (u * v) t) at 1 by lra.
  apply Rpower_antitone; [| exact He].
  rewrite <- Rpower_mult_distr by lra. split; [lra | nra].
Qed.

(** One entry of Clayton's list comprehension, after the final clamp, for
    theta > 0 and a pair of (0, 1] whose powers stay in range. *)
Lemma clayton_cdf_entry_unit (t u v : R) :
  0 < t -> 0 < u <= 1 -> 0 < v <= 1 ->
  float_min_normal <= u * v ->
  Rpower u (- t) + Rpower v (- t) <= float_max ->
  py_max (Clayton.cdf_entry (Fin t) (Fin u) (Fin v)) 0
  = Fin (Rpower (Rpower u (- t) + Rpower v (- t) + - (1)) (-1 / t)) /\
  Clayton.cdf_documented (Fin t) (Fin u) (Fin v)
  = Fin (Rpower (Rpower u (- t) + Rpower v (- t) + - (1)) (-1 / t)).
Proof.
  intros Ht Hu Hv Huv Hmax.
  destruct (clayton_cdf_real t u v Ht Hu Hv) as [Hb [[Hc Hc1] _]].
  pose proof (clayton_cdf_above_product t u v Ht Hu Hv) as Hlow.
  assert (Hpu : 1 <= Rpower u (- t)) by (apply Rpower_unit_nonpos; lra).
  assert (Hpv : 1 <= Rpower v (- t)) by (apply Rpower_unit_nonpos; lra).
  assert (Hbase : (Fin u ** (- Fin t) + Fin v ** (- Fin t) - 1)%f64
                  = Fin (Rpower u (- t) + Rpower v (- t) + - (1))).
  { cbn [fneg].
    rewrite !power_normal by (try apply normal_above_one; lra).
    reflexivity. }
  assert (Hn : normal (Rpower (Rpower u (- t) + Rpower v (- t) + - (1))
                              (-1 / t)))
    by (apply normal_unit; lra).
  split.
  - unfold Clayton.cdf_entry. cbn [fgtb fltb]. rcompare. cbn [andb].
    rewrite Hbase, fdiv_fin, power_normal by (assumption || lra).
    unfold py_max, fgtb; cbn [fltb]. rcompare. reflexivity.
  - unfold Clayton.cdf_documented. rewrite Hbase.
    unfold py_max, fgtb; cbn [fltb]. rcompare.
    rewrite fdiv_fin, power_normal by (assumption || lra). reflexivity.
Qed.

(** For a fitted Clayton with theta between 2^-10 and 2^20 and a matrix of
    pairs of (0, 1] whose product u v is at least the smallest normal
    float64 and whose sum u^-theta + v^-theta does not exceed the largest
    float64 (nothing overflows or underflows), every entry of
    [cumulative_distribution] is the finite value
    (u^-theta + v^-theta - 1)^(-1/theta); it is above 0 and at most 1, and
    it is the value of the documented formula.  The values are exact here,
    where results are not rounded. *)
Theorem clayton_cdf_unit_square
  (self : Bivariate) (t : R) (l : list (R * R)) :
  fitted self = true -> theta self = Fin t -> / 2 ^ 10 <= t <= 2 ^ 20 ->
  Forall (fun p => 0 < fst p <= 1 /\ 0 < snd p <= 1 /\
                   float_min_normal <= fst p * snd p /\
                   Rpower (fst p) (- t) + Rpower (snd p) (- t) <= float_max) l ->
  exists r,
    Clayton.cumulative_distribution self (pairs_matrix l) = Ok r /\
    Forall2 (fun p e =>
               exists c,
                 e = Fin c /\
                 c = Rpower (Rpower (fst p) (- t) + Rpower (snd p) (- t) - 1)
                            (-1 / t) /\
                 0 < c <= 1 /\
                 e = Clayton.cdf_documented (Fin t) (Fin (fst p)) (Fin (snd p)))
            l r.
Proof.
  intros Hfit Hth Htr Hl.
  assert (Ht : 0 < t) by (destruct Htr as [H _]; lra).
  unfold Clayton.cumulative_distribution, check_fit.
  rewrite Hfit, Hth, split_pairs_matrix; cbn [bind].
  destruct l as [|p l].
  - exists []. split; [reflexivity | constructor].
  - inversion Hl as [|p' l' [Hpu [Hpv _]] Hl']; subst.
    rewrite columns_not_all_zero by lra.
    rewrite combine_columns, !map_map. eexists. split; [reflexivity |].
    apply forall2_map_right_in. intros [u v] Hin. cbn [fst snd].
    assert (Huv : 0 < u <= 1 /\ 0 < v <= 1 /\ float_min_normal <= u * v /\
                  Rpower u (- t) + Rpower v (- t) <= float_max).
    { rewrite Forall_forall in Hl. apply (Hl (u, v)). exact Hin. }
    destruct Huv as [Hu [Hv [Hlo Hhi]]].
    destruct (clayton_cdf_entry_unit t u v Ht Hu Hv Hlo Hhi) as [He Hd].
    destruct (clayton_cdf_real t u v Ht Hu Hv) as [_ [Hc [Hcu Hcv]]].
    pose proof (clayton_cdf_above_product t u v Ht Hu Hv) as Hlow.
    assert (Hpos : 0 < u * v) by (apply Rmult_lt_0_compat; lra).
    eexists. split; [exact He |]. repeat split; try assumption; try lra.
    congruence.
Qed.

Lemma clayton_cdf_unit_square_witness :
  exists r,
    Clayton.cumulative_distribution (mkBivariate (Fin 1) (Fin (1/3)) true)
      (pairs_matrix [(1/2, 1/2); (1/2, 1)]) = Ok r /\
    Forall2 (fun p e =>
               exists c,
                 e = Fin c /\
                 c = Rpower (Rpower (fst p) (- 1) + Rpower (snd p) (- 1) - 1)
                            (-1 / 1) /\
                 0 < c <= 1 /\
                 e = Clayton.cdf_documented (Fin 1) (Fin (fst p)) (Fin (snd p)))
            [(1/2, 1/2); (1/2, 1)] r.
Proof.
  assert (Hh : Rpower (1/2) (- (1)) = 2).
  { rewrite Rpower_Ropp, Rpower_1 by lra. lra. }
  assert (H1 : Rpower 1 (- (1)) = 1).
  { rewrite Rpower_Ropp, Rpower_1 by lra. lra. }
  apply (clayton_cdf_unit_square (mkBivariate (Fin 1) (Fin (1/3)) true) 1
           [(1/2, 1/2); (1/2, 1)]); try reflexivity; try lra.
  repeat constructor; cbn [fst snd]; rewrite ?Hh, ?H1;
    unfold float_min_normal, float_max; lra.
Defined.

(** ** Clayton's density *)

(** For a fitted Clayton with theta between 2^-10 and 2^20 and a matrix of
    pairs of (0, 1] for which u v is at least the smallest normal float64,
    (theta+1) (uv)^(-theta-1) and u^-theta + v^-theta do not exceed the
    largest float64 and the power
    (u^-theta + v^-theta - 1)^(-(2 theta+1)/theta) is at least the smallest
    normal one (nothing overflows or underflows), every entry of
    [probability_density] is the finite, strictly positive value
    (theta+1) (uv)^(-theta-1) (u^-theta + v^-theta - 1)^(-(2 theta+1)/theta).
    The values are exact here, where results are not rounded. *)
Theorem clayton_pdf_positive (self : Bivariate) (t : R) (l : list (R * R)) :
  fitted self = true -> theta self = Fin t -> / 2 ^ 10 <= t <= 2 ^ 20 ->
  Forall (fun p =>
            0 < fst p <= 1 /\ 0 < snd p <= 1 /\
            float_min_normal <= fst p * snd p /\
            (t + 1) * Rpower (fst p * snd p) (- (t + 1)) <= float_max /\
            Rpower (fst p) (- t) + Rpower (snd p) (- t) <= float_max /\
            float_min_normal
            <= Rpower (Rpower (fst p) (- t) + Rpower (snd p) (- t) - 1)
                      (- (2 * t + 1) / t)) l ->
  exists r,
    Clayton.probability_density self (pairs_matrix l) = Ok r /\
    Forall2 (fun p e =>
               exists d,
                 e = Fin d /\ 0 < d /\
                 d = (t + 1) * Rpower (fst p * snd p) (- (t + 1))
                     * Rpower (Rpower (fst p) (- t) + Rpower (snd p) (- t) - 1)
                              (- (2 * t + 1) / t))
            l r.
Proof.
  intros Hfit Hth Htr Hl.
  assert (Ht : 0 < t) by (destruct Htr as [H _]; lra).
  unfold Clayton.probability_density, check_fit.
  rewrite Hfit, Hth, split_pairs_matrix; cbn [bind].
  columns. eexists. split; [reflexivity |].
  apply forall2_map_right_in. intros [u v] Hin.
  rewrite Forall_forall in Hl.
  destruct (Hl (u, v) Hin) as [Hu [Hv [_ [Ha [Hsum Hh]]]]].
  cbn [fst snd] in *.
  destruct (clayton_cdf_real t u v Ht Hu Hv) as [Hb _].
  assert (Huv : 0 < u * v <= 1) by nra.
  assert (HP : 1 <= Rpower (u * v) (- (t + 1)))
    by (apply Rpower_unit_nonpos; lra).
  assert (Hpu : 1 <= Rpower u (- t)) by (apply Rpower_unit_nonpos; lra).
  assert (Hpv : 1 <= Rpower v (- t)) by (apply Rpower_unit_nonpos; lra).
  assert (Hc : - (2 * t + 1) / t <= 0).
  { replace (- (2 * t + 1) / t) with (- ((2 * t + 1) / t)) by (field; lra).
    assert (0 < (2 * t + 1) / t) by (apply Rdiv_lt_0_compat; lra). lra. }
  assert (Hh1 : Rpower (Rpower u (- t) + Rpower v (- t) + - (1))
                       (- (2 * t + 1) / t) <= 1)
    by (apply Rpower_ge_1_nonpos; assumption).
  cbn [fadd fmul fneg fsub]. rewrite fdiv_fin by lra.
  rewrite (power_normal (u * v)), (power_normal u), (power_normal v)
    by (try apply normal_above_one; nra).
  cbn [fadd fmul fneg fsub].
  rewrite power_normal
    by (try apply normal_unit; unfold Rminus in *; lra).
  cbn [fmul].
  eexists. split; [reflexivity |]. split; [| reflexivity].
  repeat apply Rmult_lt_0_compat; try apply Rpower_pos. lra.
Qed.

Lemma clayton_pdf_positive_witness :
  exists r,
    Clayton.probability_density (mkBivariate (Fin 1) (Fin (1/3)) true)
      (pairs_matrix [(1/2, 1/2)]) = Ok r /\
    Forall2 (fun p e =>
               exists d,
                 e = Fin d /\ 0 < d /\
                 d = (1 + 1) * Rpower (fst p * snd p) (- (1 + 1))
                     * Rpower (Rpower (fst p) (- (1)) + Rpower (snd p) (- (1))
                               - 1)
                              (- (2 * 1 + 1) / 1))
            [(1/2, 1/2)] r.
Proof.
  assert (H1 : Rpower (1/2) (- (1)) = 2).
  { rewrite Rpower_Ropp, Rpower_1 by lra. lra. }
  assert (H2 : Rpower (1/2 * (1/2)) (- (1 + 1)) = 16).
  { rewrite Rpower_Ropp, Rpower_plus, Rpower_1 by lra. lra. }
  assert (H3 : Rpower (2 + 2 - 1) (- (2 * 1 + 1) / 1) = / 27).
  { replace (- (2 * 1 + 1) / 1) with (- (1 + 1 + 1)) by lra.
    rewrite Rpower_Ropp, !Rpower_plus, Rpower_1 by lra. f_equal. lra. }
  apply (clayton_pdf_positive (mkBivariate (Fin 1) (Fin (1/3)) true) 1
           [(1/2, 1/2)]); try reflexivity; try lra.
  repeat constructor; cbn [fst snd]; rewrite ?H2, ?H1, ?H3;
    unfold float_min_normal, float_max; lra.
Defined.

(** ** Clayton's conditional distribution and its inverse *)

(** For a fitted Clayton with theta between 2^-10 and 2^20, [percent_point]
    maps equally long arrays of targets y and values v, with y above 0 and
    at most 1 - 2^-20, v strictly between 0 and 1, v^theta at least 2^-20
    (the subtraction of 1 does not cancel) and y v v^theta at least the
    smallest normal float64 (no power overflows or underflows), to an array
    of the same length whose entries are finite, at least y v and below 1:
    the sampled u stays in the unit interval. *)
Theorem clayton_percent_point_unit_interval
  (self : Bivariate) (t : R) (l : list (R * R)) :
  fitted self = true -> theta self = Fin t -> / 2 ^ 10 <= t <= 2 ^ 20 ->
  Forall (fun p => 0 < fst p <= 1 - / 2 ^ 20 /\ 0 < snd p < 1 /\
                   / 2 ^ 20 <= Rpower (snd p) t /\
                   float_min_normal <= fst p * snd p * Rpower (snd p) t) l ->
  exists r,
    Clayton.percent_point self (column_u l) (column_v l) = Ok r /\
    Forall2 (fun p e => exists u, e = Fin u /\ fst p * snd p <= u < 1) l r.
Proof.
  intros Hfit Hth Htr Hl.
  assert (Ht : 0 < t) by (destruct Htr as [H _]; lra).
  unfold Clayton.percent_point, check_fit.
  rewrite Hfit, Hth; cbn [bind fltb]. rcompare.
  columns. eexists. split; [reflexivity |].
  apply forall2_map_right_in. intros [y v] Hin. cbn [fst snd].
  assert (Hyv : 0 < y <= 1 - / 2 ^ 20 /\ 0 < v < 1 /\
                / 2 ^ 20 <= Rpower v t /\
                float_min_normal <= y * v * Rpower v t).
  { rewrite Forall_forall in Hl. apply (Hl (y, v)). exact Hin. }
  destruct Hyv as [Hy' [Hv [_ Hr]]].
  assert (Hy : 0 < y < 1) by lra.
  pose proof (clayton_round_trip_real t y v Ht Hy Hv) as Hreal.
  pose proof (clayton_round_trip_range t y v Ht Hy Hv Hr) as Hrange.
  cbv zeta in Hreal, Hrange.
  destruct Hreal as [Hq _].
  destruct Hrange as [Ha [Hb [[Hu Hu1] _]]].
  pose proof (normal_pos _ Hb) as Hb0.
  cbn [fsub fneg fadd]. rewrite !fdiv_fin by lra.
  rewrite (power_normal y), (power_normal v) by (assumption || lra).
  cbn [fadd fsub fneg]. rewrite fdiv_fin by lra.
  rewrite power_normal by assumption.
  eexists. split; [reflexivity | exact Hu1].
Qed.

Lemma clayton_percent_point_unit_interval_witness :
  exists r,
    Clayton.percent_point (mkBivariate (Fin 1) (Fin (1/3)) true)
      (column_u [(1/4, 1/2); (1/3, 1/2)]) (column_v [(1/4, 1/2); (1/3, 1/2)])
      = Ok r /\
    Forall2 (fun p e => exists u, e = Fin u /\ fst p * snd p <= u < 1)
            [(1/4, 1/2); (1/3, 1/2)] r.
Proof.
  assert (Hh : Rpower (1/2) 1 = 1/2) by (apply Rpower_1; lra).
  apply (clayton_percent_point_unit_interval
           (mkBivariate (Fin 1) (Fin (1/3)) true) 1
           [(1/4, 1/2); (1/3, 1/2)]); try reflexivity; try lra.
  repeat constructor; cbn [fst snd]; rewrite ?Hh;
    unfold float_min_normal; lra.
Defined.

Lemma clayton_partial_derivative_real (t u v : R) :
  0 < t -> 0 < u < 1 -> 0 < v < 1 ->
  let B := Rpower v (- t) + Rpower u (- t) + - (1) in
  1 < B /\
  0 < Rpower v (- t + - (1)) * Rpower B ((-1 + - t) / t) < 1.
Proof.
  intros Ht Hu Hv B.
  assert (Hpu : 1 < Rpower u (- t)) by (apply Rpower_gt_1; lra).
  assert (Hpv1 : 1 < Rpower v (- t)) by (apply Rpower_gt_1; lra).
  pose proof (Rpower_pos v (- t)) as Hpv.
  assert (HB : Rpower v (- t) < B) by (unfold B; lra).
  assert (Hc : 0 < (1 + t) / t) by (apply Rdiv_lt_0_compat; lra).
  split; [lra |]. split.
  - apply Rmult_lt_0_compat; apply Rpower_pos.
  - replace (- t + - (1)) with (- t * ((1 + t) / t)) by (field; lra).
    rewrite <- Rpower_mult.
    replace ((-1 + - t) / t) with (- ((1 + t) / t)) by (field; lra).
    rewrite (Rpower_Ropp B).
    pose proof (Rlt_Rpower_l (Rpower v (- t)) B ((1 + t) / t) Hc
                  (conj Hpv HB)) as Hlt.
    pose proof (Rpower_pos B ((1 + t) / t)) as HBc.
    apply Rmult_lt_reg_r with (Rpower B ((1 + t) / t)); [exact HBc |].
    rewrite Rmult_assoc, Rinv_l by lra. lra.
Qed.

(** For a fitted Clayton with theta between 2^-10 and 2^20 and pairs
    strictly inside the unit square for which v^(-theta-1) and
    v^-theta + u^-theta do not exceed the largest float64 and the power
    (v^-theta + u^-theta - 1)^((-1-theta)/theta) is at least the smallest
    normal one (nothing overflows or underflows), every entry of
    [partial_derivative] with offset y is d - y for the finite value
    d = v^(-theta-1) (v^-theta + u^-theta - 1)^((-1-theta)/theta), which is
    above 0.  The values are exact here, where results are not rounded. *)
Theorem clayton_partial_derivative_unit_interval
  (self : Bivariate) (t y : R) (l : list (R * R)) :
  fitted self = true -> theta self = Fin t -> / 2 ^ 10 <= t <= 2 ^ 20 ->
  Forall (fun p =>
            0 < fst p < 1 /\ 0 < snd p < 1 /\
            Rpower (snd p) (- t - 1) <= float_max /\
            Rpower (snd p) (- t) + Rpower (fst p) (- t) <= float_max /\
            float_min_normal
            <= Rpower (Rpower (snd p) (- t) + Rpower (fst p) (- t) - 1)
                      ((-1 - t) / t)) l ->
  exists r,
    Clayton.partial_derivative self (pairs_matrix l) (Fin y) = Ok r /\
    Forall2 (fun p e =>
               exists d,
                 e = Fin (d - y) /\
                 d = Rpower (snd p) (- t - 1)
                     * Rpower (Rpower (snd p) (- t) + Rpower (fst p) (- t) - 1)
                              ((-1 - t) / t) /\
                 0 < d)
            l r.
Proof.
  intros Hfit Hth Htr Hl.
  assert (Ht : 0 < t) by (destruct Htr as [H _]; lra).
  unfold Clayton.partial_derivative, check_fit.
  rewrite Hfit, Hth, split_pairs_matrix; cbn [bind feqb]. rcompare.
  columns. eexists. split; [reflexivity |].
  apply forall2_map_right_in. intros [u v] Hin.
  rewrite Forall_forall in Hl.
  destruct (Hl (u, v) Hin) as [Hu [Hv [HA [Hsum Hh]]]]. cbn [fst snd] in *.
  destruct (clayton_partial_derivative_real t u v Ht Hu Hv) as [HB Hd].
  assert (Hpu : 1 < Rpower u (- t)) by (apply Rpower_gt_1; lra).
  assert (Hpv : 1 < Rpower v (- t)) by (apply Rpower_gt_1; lra).
  assert (HA1 : 1 < Rpower v (- t + - (1))) by (apply Rpower_gt_1; lra).
  assert (Hh1 : Rpower (Rpower v (- t) + Rpower u (- t) + - (1))
                       ((-1 + - t) / t) <= 1).
  { apply Rpower_ge_1_nonpos; [lra |].
    replace ((-1 + - t) / t) with (- ((1 + t) / t)) by (field; lra).
    assert (0 < (1 + t) / t) by (apply Rdiv_lt_0_compat; lra). lra. }
  cbn [fsub fneg fadd]. rewrite fdiv_fin by lra.
  rewrite (power_normal v (- t + - (1))), (power_normal v (- t)),
    (power_normal u (- t))
    by (try apply normal_above_one; unfold Rminus in *; lra).
  cbn [fadd fsub fneg].
  rewrite power_normal by (try apply normal_unit; unfold Rminus in *; lra).
  cbn [fmul fadd fsub fneg].
  eexists. split; [reflexivity |]. split; [| exact (proj1 Hd)].
  unfold Rminus. reflexivity.
Qed.

Lemma clayton_partial_derivative_unit_interval_witness :
  exists r,
    Clayton.partial_derivative (mkBivariate (Fin 1) (Fin (1/3)) true)
      (pairs_matrix [(1/2, 1/2)]) (Fin (1/10)) = Ok r /\
    Forall2 (fun p e =>
               exists d,
                 e = Fin (d - 1/10) /\
                 d = Rpower (snd p) (- (1) - 1)
                     * Rpower (Rpower (snd p) (- (1)) + Rpower (fst p) (- (1))
                               - 1)
                              ((-1 - 1) / 1) /\
                 0 < d)
            [(1/2, 1/2)] r.
Proof.
  assert (H1 : Rpower (1/2) (- (1)) = 2).
  { rewrite Rpower_Ropp, Rpower_1 by lra. lra. }
  assert (H2 : Rpower (1/2) (- (1) - 1) = 4).
  { replace (- (1) - 1) with (- (1) + - (1)) by lra.
    rewrite Rpower_plus, H1. lra. }
  assert (H3 : Rpower (2 + 2 - 1) ((-1 - 1) / 1) = / 9).
  { replace ((-1 - 1) / 1) with (- (1 + 1)) by lra.
    rewrite Rpower_Ropp, Rpower_plus, Rpower_1 by lra. f_equal. lra. }
  apply (clayton_partial_derivative_unit_interval
           (mkBivariate (Fin 1) (Fin (1/3)) true) 1 (1/10) [(1/2, 1/2)]);
    try reflexivity; try lra.
  repeat constructor; cbn [fst snd]; rewrite ?H2, ?H1, ?H3;
    unfold float_min_normal, float_max; lra.
Defined.

(** ** The offset of [partial_derivative] *)

(** Away from the special parameter (theta = 0 for Clayton, theta = 1 for
    Gumbel), [partial_derivative] with offset y is [partial_derivative] with
    offset 0 followed by the subtraction of y from every entry; errors are
    the same on both sides. *)
Theorem partial_derivative_subtracts_offset
  (self : Bivariate) (X : matrix) (y : float64) :
  (feqb (theta self) 0 = false ->
   Clayton.partial_derivative self X y
   = (d <- Clayton.partial_derivative self X 0 ;; Ok (d .- y)%f64)) /\
  (feqb (theta self) 1 = false ->
   Gumbel.partial_derivative self X y
   = (d <- Gumbel.partial_derivative self X 0 ;; Ok (d .- y)%f64)).
Proof.
  split; intros Hth.
  - unfold Clayton.partial_derivative. rewrite Hth.
    destruct (check_fit self); cbn [bind]; [| reflexivity].
    destruct (split_matrix X) as [[U V]|e]; cbn [bind]; [| reflexivity].
    destruct (broadcast fadd _ _) as [B0|e]; cbn [bind]; [| reflexivity].
    destruct (broadcast fmul _ _) as [Ah|e]; cbn [bind]; [| reflexivity].
    rewrite offset_after_zero. reflexivity.
  - unfold Gumbel.partial_derivative. rewrite Hth.
    destruct (check_fit self); cbn [bind]; [| reflexivity].
    destruct (split_matrix X) as [[U V]|e]; cbn [bind]; [| reflexivity].
    destruct (Gumbel.cumulative_distribution self X) as [p1|e]; cbn [bind];
      [| reflexivity].
    destruct (broadcast fadd _ _) as [t12|e]; cbn [bind]; [| reflexivity].
    destruct (broadcast fmul p1 _) as [p12|e]; cbn [bind]; [| reflexivity].
    destruct (broadcast fmul p12 _) as [p123|e]; cbn [bind]; [| reflexivity].
    destruct (broadcast fdiv _ _) as [q|e]; cbn [bind]; [| reflexivity].
    rewrite offset_after_zero. reflexivity.
Qed.

Lemma partial_derivative_subtracts_offset_witness :
  Clayton.partial_derivative (mkBivariate (Fin 2) (Fin 2) true)
    [[Fin (1/4); Fin (1/2)]] (Fin (1/10))
  = (d <- Clayton.partial_derivative (mkBivariate (Fin 2) (Fin 2) true)
            [[Fin (1/4); Fin (1/2)]] 0 ;;
     Ok (d .- Fin (1/10))%f64) /\
  Gumbel.partial_derivative (mkBivariate (Fin 2) (Fin 2) true)
    [[Fin (1/4); Fin (1/2)]] (Fin (1/10))
  = (d <- Gumbel.partial_derivative (mkBivariate (Fin 2) (Fin 2) true)
            [[Fin (1/4); Fin (1/2)]] 0 ;;
     Ok (d .- Fin (1/10))%f64).
Proof.
  pose proof (partial_derivative_subtracts_offset
                (mkBivariate (Fin 2) (Fin 2) true)
                [[Fin (1/4); Fin (1/2)]] (Fin (1/10))) as [Hc Hg].
  split; [apply Hc | apply Hg]; simpl; rcompare; reflexivity.
Defined.

(** ** The generators *)

(** A value of at least 1 never underflows: it is returned as it is, or as
    plus infinity. *)
Lemma finite_result_above_one (r : R) :
  1 <= r -> finite_result r = PInf \/ finite_result r = Fin r.
Proof.
  intros Hr. unfold finite_result. rewrite Rabs_pos_eq by lra.
  destruct (Rltb r overflow_threshold).
  - right. rewrite Rltb_true by (unfold underflow_threshold; lra).
    reflexivity.
  - left. unfold Rsign. rewrite Rltb_true by lra. reflexivity.
Qed.

Lemma neg_ln_unit (x : R) : 0 < x <= 1 -> 0 <= - ln x /\ (x = 1 -> - ln x = 0).
Proof.
  intros Hx. pose proof (ln_unit_nonpos x Hx). split; [lra |].
  intros ->. rewrite ln_1. lra.
Qed.

(** One entry of Clayton's generator. *)
Lemma clayton_generator_entry (t x : R) :
  0 < t -> 0 < x <= 1 ->
  let e := ((1 / Fin t) * (Fin x ** (- Fin t) - 1))%f64 in
  (e = PInf \/ exists g, e = Fin g /\ 0 <= g) /\ (x = 1 -> e = Fin 0).
Proof.
  intros Ht Hx e. pose proof (Rinv_pos_div t Ht) as Hi. split.
  - unfold e. rewrite fdiv_fin by lra. cbn [fneg].
    pose proof (Rpower_unit_nonpos x (- t) Hx) as Hp.
    assert (Hcases : (Fin x ** Fin (- t))%f64 = PInf \/
                     exists p, (Fin x ** Fin (- t))%f64 = Fin p /\ 1 <= p).
    { unfold power; cbn [feqb]. rcompare.
      destruct (Reqb x 1); [right; exists 1; split; [reflexivity | lra] |].
      unfold power_fin. rcompare.
      destruct (finite_result_above_one (Rpower x (- t))) as [-> | ->];
        [lra | left; reflexivity |].
      right. exists (Rpower x (- t)). split; [reflexivity | lra]. }
    destruct Hcases as [-> | [p [-> Hp1]]].
    + left. cbn [fsub fneg fadd fmul fsign sign_mul]. unfold Rsign. rcompare.
      reflexivity.
    + right. cbn [fsub fneg fadd fmul]. eexists. split; [reflexivity |].
      apply Rmult_le_pos; lra.
  - intros ->. unfold e. rewrite fdiv_fin by lra. rewrite power_one_l.
    cbn [fsub fneg fadd fmul]. f_equal. lra.
Qed.

(** On arguments of (0, 1], the generator of a fitted Clayton with
    theta >= 2^-10 and the generator of Gumbel with theta >= 1 return, entry
    by entry, plus infinity or a finite value that is not negative, never
    NaN, and 0 at the argument 1, in line with the range [0, oo) that the
    docstring of Clayton's generator names; the generator of Independence,
    log, returns finite values that are at most 0, and 0 at 1. *)
Theorem generators_on_unit_interval
  (clayton gumbel independence : Bivariate) (tc tg : R) (l : list R) :
  fitted clayton = true -> theta clayton = Fin tc -> / 2 ^ 10 <= tc ->
  theta gumbel = Fin tg -> 1 <= tg ->
  Forall (fun x => 0 < x <= 1) l ->
  (exists r, Clayton.generator clayton (map Fin l) = Ok r /\
     Forall2 (fun x e =>
                (e = PInf \/ exists g, e = Fin g /\ 0 <= g) /\
                (x = 1 -> e = Fin 0))
             l r) /\
  (exists r, Gumbel.generator gumbel (map Fin l) = Ok r /\
     Forall2 (fun x e =>
                (e = PInf \/ exists g, e = Fin g /\ 0 <= g) /\
                (x = 1 -> e = Fin 0))
             l r) /\
  (exists r, Independence.generator independence (map Fin l) = Ok r /\
     Forall2 (fun x e => exists g, e = Fin g /\ g <= 0 /\ (x = 1 -> g = 0))
             l r).
Proof.
  intros Hfit Hthc Htc Hthg Htg Hl. rewrite Forall_forall in Hl.
  assert (Htc0 : 0 < tc) by lra.
  repeat split.
  - unfold Clayton.generator, check_fit. rewrite Hfit, Hthc; cbn [bind].
    columns. eexists. split; [reflexivity |].
    apply forall2_map_right_in. intros x Hx.
    apply (clayton_generator_entry tc x Htc0 (Hl x Hx)).
  - unfold Gumbel.generator. rewrite Hthg.
    columns. eexists. split; [reflexivity |].
    apply forall2_map_right_in. intros x Hx. specialize (Hl x Hx).
    destruct (neg_ln_unit x Hl) as [Hn H1].
    cbn [log]. rcompare. cbn [fneg].
    destruct (power_nonneg_base (- ln x) tg Hn) as [Hcases Hzero]; [lra |].
    split; [exact Hcases |]. intros E. apply Hzero, H1, E.
  - unfold Independence.generator.
    columns. eexists. split; [reflexivity |].
    apply forall2_map_right_in. intros x Hx. specialize (Hl x Hx).
    cbn [log]. rcompare. eexists. split; [reflexivity |].
    split; [apply ln_unit_nonpos, Hl |]. intros ->. apply ln_1.
Qed.

Lemma generators_on_unit_interval_witness :
  exists r,
    Clayton.generator (mkBivariate (Fin 2) (Fin (1/2)) true)
      (map Fin [1/2; 1]) = Ok r /\
    Forall2 (fun x e =>
               (e = PInf \/ exists g, e = Fin g /\ 0 <= g) /\
               (x = 1 -> e = Fin 0))
            [1/2; 1] r.
Proof.
  apply (generators_on_unit_interval
           (mkBivariate (Fin 2) (Fin (1/2)) true)
           (mkBivariate (Fin 2) (Fin (1/2)) true) unfitted 2 2 [1/2; 1]);
    try reflexivity; try lra.
  repeat constructor; lra.
Defined.

(** ** Gumbel's distribution function on the unit square *)

(** Gumbel's formula on the reals, for theta > 0 and a pair strictly inside
    the unit square. *)
Lemma gumbel_cdf_real (t u v : R) :
  0 < t -> 0 < u < 1 -> 0 < v < 1 ->
  let h := Rpower (- ln u) t + Rpower (- ln v) t in
  let c := Rtrigo_def.exp (- Rpower h (1 / t)) in
  0 < h /\ 0 < c < 1 /\ c <= u /\ c <= v.
Proof.
  intros Ht Hu Hv h c.
  pose proof (neg_ln_pos u Hu) as Hlu. pose proof (neg_ln_pos v Hv) as Hlv.
  pose proof (Rpower_pos (- ln u) t) as Hpu.
  pose proof (Rpower_pos (- ln v) t) as Hpv.
  pose proof (Rinv_pos_div t Ht) as Hi.
  assert (Hh : 0 < h) by (unfold h; lra).
  assert (Hroot : forall x, 0 < x -> Rpower (Rpower x t) (1 / t) = x).
  { intros x Hx. rewrite Rpower_mult.
    replace (t * (1 / t)) with 1 by (field; lra). apply Rpower_1, Hx. }
  assert (Hbound : forall x, 0 < x -> Rpower x t <= h ->
                             Rtrigo_def.exp (- Rpower h (1 / t)) <= Rtrigo_def.exp (- x)).
  { intros x Hx Hle. apply exp_le_mono.
    pose proof (Rle_Rpower_l (Rpower x t) h (1 / t) (Rlt_le _ _ Hi)
                  (conj (Rpower_pos x t) Hle)) as H.
    rewrite Hroot in H by exact Hx. lra. }
  split; [exact Hh |]. split; [split |]; [| | split].
  - apply exp_pos.
  - unfold c. apply Rlt_le_trans with (Rtrigo_def.exp 0).
    + apply exp_increasing. pose proof (Rpower_pos h (1 / t)). lra.
    + rewrite exp_0. lra.
  - replace u with (Rtrigo_def.exp (- - ln u))
      by (rewrite Ropp_involutive; apply exp_ln; lra).
    apply Hbound; [exact Hlu | unfold h; lra].
  - replace v with (Rtrigo_def.exp (- - ln v))
      by (rewrite Ropp_involutive; apply exp_ln; lra).
    apply Hbound; [exact Hlv | unfold h; lra].
Qed.

(** A base at most 1 to a power of at least 1 is at most the base; a base
    of at least 1 is at most its power. *)
Lemma Rpower_below_base (x t : R) :
  0 < x <= 1 -> 1 <= t -> Rpower x t <= x.
Proof.
  intros [H0 [H1 | ->]] Ht.
  - rewrite <- (Rpower_1 x) at 2 by lra.
    apply Rpower_unit_exponent_antitone; [lra | exact Ht].
  - unfold Rpower. rewrite ln_1, Rmult_0_r, exp_0. lra.
Qed.

Lemma Rpower_above_base (x t : R) :
  1 <= x -> 1 <= t -> x <= Rpower x t.
Proof.
  intros Hx Ht. rewrite <- (Rpower_1 x) at 1 by lra.
  apply Rle_Rpower; assumption.
Qed.

(** The root of a normal value, for an index of at least 1, is normal. *)
Lemma normal_root (h t : R) : normal h -> 1 <= t -> normal (Rpower h (1 / t)).
Proof.
  intros Hn Ht. pose proof (normal_pos h Hn) as Hh. destruct Hn as [Hlo Hhi].
  pose proof (Rinv_pos_div t) as Hi.
  assert (Hroot : Rpower (Rpower h (1 / t)) t = h).
  { rewrite Rpower_mult. replace (1 / t * t) with 1 by (field; lra).
    apply Rpower_1, Hh. }
  pose proof (Rpower_pos h (1 / t)) as Hs.
  destruct (Rle_dec (Rpower h (1 / t)) 1) as [Hle | Hgt].
  - apply normal_unit; [| exact Hle].
    pose proof (Rpower_below_base (Rpower h (1 / t)) t (conj Hs Hle) Ht).
    lra.
  - apply normal_above_one; [lra |].
    pose proof (Rpower_above_base (Rpower h (1 / t)) t). lra.
Qed.

(** The base of a normal power, for an exponent of at least 1, is normal. *)
Lemma normal_base (x t : R) :
  0 < x -> 1 <= t -> normal (Rpower x t) -> normal x.
Proof.
  intros Hx Ht [Hlo Hhi].
  destruct (Rle_dec x 1) as [Hle | Hgt].
  - apply normal_unit; [| exact Hle].
    pose proof (Rpower_below_base x t (conj Hx Hle) Ht). lra.
  - apply normal_above_one; [lra |].
    pose proof (Rpower_above_base x t). lra.
Qed.

(** One entry of Gumbel's formula branch on the model's numbers, when no
    intermediate result leaves the normal range. *)
Lemma gumbel_cdf_entry (t u v : R) :
  1 <= t -> 0 < u < 1 -> 0 < v < 1 ->
  normal (Rpower (- ln u) t) -> normal (Rpower (- ln v) t) ->
  Rpower (- ln u) t + Rpower (- ln v) t <= float_max ->
  float_min_normal
  <= Rtrigo_def.exp (- Rpower (Rpower (- ln u) t + Rpower (- ln v) t) (1 / t)) ->
  exp (- (((- log (Fin u)) ** Fin t + (- log (Fin v)) ** Fin t) ** (1 / Fin t)))%f64
  = Fin (Rtrigo_def.exp
           (- Rpower (Rpower (- ln u) t + Rpower (- ln v) t) (1 / t))).
Proof.
  intros Ht Hu Hv Hnu Hnv Hsum Hlow.
  destruct (gumbel_cdf_real t u v) as [Hh [[_ Hc1] _]]; try lra.
  pose proof (neg_ln_pos u Hu). pose proof (neg_ln_pos v Hv).
  cbn [log]. rcompare. cbn [fneg].
  rewrite !power_normal by assumption. cbn [fadd].
  rewrite fdiv_fin by lra.
  assert (Hnh : normal (Rpower (- ln u) t + Rpower (- ln v) t)).
  { pose proof (normal_pos _ Hnv). destruct Hnu. split; lra. }
  rewrite power_normal by (try apply normal_root; assumption).
  cbn [fneg exp]. apply finite_result_normal, normal_unit; lra.
Qed.

(** For a fitted Gumbel with theta between 1 and 2^20 and a matrix of pairs
    strictly inside the unit square for which the product u v is at least
    the smallest normal float64, the powers (-ln u)^theta and
    (-ln v)^theta are normal float64 values, their sum does not exceed the
    largest float64 and the value of the formula is at least the smallest
    normal one (nothing overflows or underflows), every entry of
    [cumulative_distribution] is finite and strictly between 0 and 1. *)
Theorem gumbel_cdf_unit_square
  (self : Bivariate) (t : R) (l : list (R * R)) :
  fitted self = true -> theta self = Fin t -> 1 <= t <= 2 ^ 20 ->
  Forall (fun p =>
            0 < fst p < 1 /\ 0 < snd p < 1 /\
            float_min_normal <= fst p * snd p /\
            normal (Rpower (- ln (fst p)) t) /\
            normal (Rpower (- ln (snd p)) t) /\
            Rpower (- ln (fst p)) t + Rpower (- ln (snd p)) t <= float_max /\
            float_min_normal
            <= Rtrigo_def.exp
                 (- Rpower (Rpower (- ln (fst p)) t + Rpower (- ln (snd p)) t)
                           (1 / t))) l ->
  exists r,
    Gumbel.cumulative_distribution self (pairs_matrix l) = Ok r /\
    Forall2 (fun p e =>
               exists c, e = Fin c /\ 0 < c < 1)
            l r.
Proof.
  intros Hfit Hth [Ht _] Hl. rewrite Forall_forall in Hl.
  unfold Gumbel.cumulative_distribution, check_fit.
  rewrite Hfit, Hth, split_pairs_matrix; cbn [bind feqb].
  destruct (Reqb t 1) eqn:E.
  - columns. eexists. split; [reflexivity |].
    apply forall2_map_right_in. intros [u v] Hin.
    destruct (Hl (u, v) Hin) as [Hu [Hv _]]. cbn [fst snd] in *.
    cbn [fmul]. eexists. split; [reflexivity |]. nra.
  - apply Reqb_neq in E. columns. eexists. split; [reflexivity |].
    apply forall2_map_right_in. intros [u v] Hin.
    destruct (Hl (u, v) Hin) as [Hu [Hv [_ [Hnu [Hnv [Hsum Hlow]]]]]].
    cbn [fst snd] in *.
    rewrite gumbel_cdf_entry by assumption.
    eexists. split; [reflexivity |].
    destruct (gumbel_cdf_real t u v) as [_ [Hc _]]; [lra | lra | lra |].
    exact Hc.
Qed.

Lemma neg_ln_bounds (x : R) : 0 < x -> 1 - x <= - ln x <= / x - 1.
Proof.
  intros Hx. split.
  - pose proof (exp_ineq1_le (ln x)) as H. rewrite exp_ln in H by exact Hx. lra.
  - pose proof (exp_ineq1_le (- ln x)) as H.
    rewrite exp_Ropp, exp_ln in H by exact Hx. lra.
Qed.

Lemma Rpower_two (x : R) : 0 < x -> Rpower x 2 = x * x.
Proof.
  intros Hx. replace 2 with (1 + 1) by lra.
  rewrite Rpower_plus, Rpower_1 by exact Hx. reflexivity.
Qed.

Lemma exp_neg_above_third (s : R) : s <= 1 -> / 3 <= Rtrigo_def.exp (- s).
Proof.
  intros Hs. apply Rle_trans with (Rtrigo_def.exp (- (1))).
  - rewrite exp_Ropp. apply Rinv_le_contravar; [apply exp_pos | apply exp_le_3].
  - apply exp_le_mono. lra.
Qed.

Lemma gumbel_cdf_unit_square_witness :
  exists r,
    Gumbel.cumulative_distribution (mkBivariate (Fin 2) (Fin (1/2)) true)
      (pairs_matrix [(9/10, 4/5)]) = Ok r /\
    Forall2 (fun p e =>
               exists c, e = Fin c /\ 0 < c < 1)
            [(9/10, 4/5)] r.
Proof.
  pose proof (neg_ln_bounds (9/10)) as Hu.
  pose proof (neg_ln_bounds (4/5)) as Hv.
  assert (Hpu : Rpower (- ln (9/10)) 2 = - ln (9/10) * - ln (9/10))
    by (apply Rpower_two; lra).
  assert (Hpv : Rpower (- ln (4/5)) 2 = - ln (4/5) * - ln (4/5))
    by (apply Rpower_two; lra).
  assert (Hh : 0 < Rpower (- ln (9/10)) 2 + Rpower (- ln (4/5)) 2 < 1)
    by (rewrite Hpu, Hpv; nra).
  assert (Hs : Rpower (Rpower (- ln (9/10)) 2 + Rpower (- ln (4/5)) 2) (1 / 2)
               <= 1).
  { left. apply Rpower_unit_pos; [exact Hh | lra]. }
  pose proof (exp_neg_above_third _ Hs) as He.
  apply (gumbel_cdf_unit_square (mkBivariate (Fin 2) (Fin (1/2)) true) 2
           [(9/10, 4/5)]); try reflexivity; try lra.
  repeat constructor; cbn [fst snd]; try lra;
    unfold normal, float_min_normal, float_max in *; try lra;
    rewrite ?Hpu, ?Hpv; try split; nra.
Defined.

(** ** The Archimedean identity *)

Lemma clayton_cdf_pair (self : Bivariate) (t u v : R) :
  fitted self = true -> theta self = Fin t -> 0 < t ->
  0 < u <= 1 -> 0 < v <= 1 ->
  float_min_normal <= u * v ->
  Rpower u (- t) + Rpower v (- t) <= float_max ->
  Clayton.cumulative_distribution self [[Fin u; Fin v]]
  = Ok [Fin (Rpower (Rpower u (- t) + Rpower v (- t) + - (1)) (-1 / t))].
Proof.
  intros Hfit Hth Ht Hu Hv Hlo Hhi.
  unfold Clayton.cumulative_distribution, check_fit.
  rewrite Hfit, Hth; cbn [bind split_matrix all_eq forallb feqb]. rcompare.
  cbn [orb andb combine map fst snd].
  destruct (clayton_cdf_entry_unit t u v Ht Hu Hv Hlo Hhi) as [-> _].
  reflexivity.
Qed.

Lemma clayton_generator_one (self : Bivariate) (t x : R) :
  fitted self = true -> theta self = Fin t -> 0 < t -> 0 < x ->
  normal (Rpower x (- t)) ->
  Clayton.generator self [Fin x] = Ok [Fin (1 / t * (Rpower x (- t) + - (1)))].
Proof.
  intros Hfit Hth Ht Hx Hn. unfold Clayton.generator, check_fit.
  rewrite Hfit, Hth; cbn [bind vscalar_r vscalar_l map fneg].
  rewrite fdiv_fin, power_normal by (assumption || lra). reflexivity.
Qed.

(** The generator of a fitted Clayton turns its distribution function into
    a sum, the identity C(u,v) = psi^-1(psi(u) + psi(v)) of the docstring:
    for theta between 2^-10 and 2^20 and u, v above 0 and at most
    1 - 2^-20, with u v at least the smallest normal float64 and
    u^-theta + v^-theta at most the largest float64 (nothing overflows or
    underflows), the generator at [cumulative_distribution] of (u, v) is the
    sum of the generator at u and the generator at v.  The identity is exact
    here, where results are not rounded. *)
Theorem clayton_archimedean (self : Bivariate) (t u v : R) :
  fitted self = true -> theta self = Fin t -> / 2 ^ 10 <= t <= 2 ^ 20 ->
  0 < u <= 1 - / 2 ^ 20 -> 0 < v <= 1 - / 2 ^ 20 ->
  float_min_normal <= u * v ->
  Rpower u (- t) + Rpower v (- t) <= float_max ->
  exists c gu gv,
    Clayton.cumulative_distribution self [[Fin u; Fin v]] = Ok [Fin c] /\
    Clayton.generator self [Fin u] = Ok [Fin gu] /\
    Clayton.generator self [Fin v] = Ok [Fin gv] /\
    Clayton.generator self [Fin c] = Ok [Fin (gu + gv)].
Proof.
  intros Hfit Hth [Htr _] Hu' Hv' Hlo Hhi.
  assert (Ht : 0 < t).
  { assert (0 < / 2 ^ 10) by (apply Rinv_0_lt_compat; lra). lra. }
  assert (He : 0 < / 2 ^ 20) by (apply Rinv_0_lt_compat; lra).
  assert (Hu : 0 < u <= 1) by lra. assert (Hv : 0 < v <= 1) by lra.
  destruct (clayton_cdf_real t u v Ht Hu Hv) as [Hb [[Hc _] _]].
  assert (Hpu : 1 <= Rpower u (- t)) by (apply Rpower_unit_nonpos; lra).
  assert (Hpv : 1 <= Rpower v (- t)) by (apply Rpower_unit_nonpos; lra).
  assert (Hback : Rpower (Rpower (Rpower u (- t) + Rpower v (- t) + - (1))
                                 (-1 / t)) (- t)
                  = Rpower u (- t) + Rpower v (- t) + - (1)).
  { rewrite Rpower_mult. replace (-1 / t * - t) with 1 by (field; lra).
    apply Rpower_1. lra. }
  do 3 eexists. split; [apply (clayton_cdf_pair self t); assumption |].
  split; [apply (clayton_generator_one self t);
          try apply normal_above_one; (assumption || lra) |].
  split; [apply (clayton_generator_one self t);
          try apply normal_above_one; (assumption || lra) |].
  rewrite (clayton_generator_one self t)
    by (try (rewrite Hback; apply normal_above_one); (assumption || lra)).
  rewrite Hback. do 3 f_equal. lra.
Qed.

Lemma clayton_archimedean_witness :
  exists c gu gv,
    Clayton.cumulative_distribution (mkBivariate (Fin 1) (Fin (1/3)) true)
      [[Fin (1/2); Fin (1/2)]] = Ok [Fin c] /\
    Clayton.generator (mkBivariate (Fin 1) (Fin (1/3)) true) [Fin (1/2)]
      = Ok [Fin gu] /\
    Clayton.generator (mkBivariate (Fin 1) (Fin (1/3)) true) [Fin (1/2)]
      = Ok [Fin gv] /\
    Clayton.generator (mkBivariate (Fin 1) (Fin (1/3)) true) [Fin c]
      = Ok [Fin (gu + gv)].
Proof.
  assert (H1 : Rpower (1/2) (- (1)) = 2).
  { rewrite Rpower_Ropp, Rpower_1 by lra. lra. }
  apply (clayton_archimedean (mkBivariate (Fin 1) (Fin (1/3)) true) 1
           (1/2) (1/2)); try reflexivity; try lra;
    rewrite ?H1; unfold float_min_normal, float_max; lra.
Defined.

Lemma gumbel_cdf_pair (self : Bivariate) (t u v : R) :
  fitted self = true -> theta self = Fin t -> 1 <= t ->
  0 < u < 1 -> 0 < v < 1 ->
  normal (Rpower (- ln u) t) -> normal (Rpower (- ln v) t) ->
  Rpower (- ln u) t + Rpower (- ln v) t <= float_max ->
  float_min_normal
  <= Rtrigo_def.exp (- Rpower (Rpower (- ln u) t + Rpower (- ln v) t) (1 / t)) ->
  Gumbel.cumulative_distribution self [[Fin u; Fin v]]
  = Ok [Fin (if Reqb t 1 then u * v
             else Rtrigo_def.exp
                    (- Rpower (Rpower (- ln u) t + Rpower (- ln v) t) (1 / t)))].
Proof.
  intros Hfit Hth Ht Hu Hv Hnu Hnv Hsum Hlow.
  unfold Gumbel.cumulative_distribution, check_fit.
  rewrite Hfit, Hth; cbn [bind split_matrix feqb].
  destruct (Reqb t 1) eqn:E; [reflexivity |].
  cbn [Gumbel.neg_log map vscalar_r broadcast length Nat.eqb zip_with bind].
  rewrite gumbel_cdf_entry by assumption. reflexivity.
Qed.

Lemma gumbel_generator_one (self : Bivariate) (t x : R) :
  theta self = Fin t -> 0 < x < 1 -> normal (Rpower (- ln x) t) ->
  Gumbel.generator self [Fin x] = Ok [Fin (Rpower (- ln x) t)].
Proof.
  intros Hth Hx Hn. pose proof (neg_ln_pos x Hx).
  unfold Gumbel.generator. rewrite Hth.
  cbn [Gumbel.neg_log map vscalar_r log]. rcompare. cbn [fneg].
  rewrite power_normal by (assumption || lra). reflexivity.
Qed.

(** The generator of a fitted Gumbel turns its distribution function into a
    sum: for theta between 1 and 2^20 and u, v above 0 and at most
    1 - 2^-20, with u v at least the smallest normal float64, the powers
    (-ln u)^theta and (-ln v)^theta normal float64 values, their sum at most
    the largest float64 and the value of the distribution function at least
    the smallest normal one (nothing overflows or underflows), the generator
    at [cumulative_distribution] of (u, v) is the sum of the generator at u
    and the generator at v.  The identity is exact here, where results are
    not rounded. *)
Theorem gumbel_archimedean (self : Bivariate) (t u v : R) :
  fitted self = true -> theta self = Fin t -> 1 <= t <= 2 ^ 20 ->
  0 < u <= 1 - / 2 ^ 20 -> 0 < v <= 1 - / 2 ^ 20 ->
  float_min_normal <= u * v ->
  normal (Rpower (- ln u) t) -> normal (Rpower (- ln v) t) ->
  Rpower (- ln u) t + Rpower (- ln v) t <= float_max ->
  float_min_normal
  <= Rtrigo_def.exp (- Rpower (Rpower (- ln u) t + Rpower (- ln v) t) (1 / t)) ->
  exists c gu gv,
    Gumbel.cumulative_distribution self [[Fin u; Fin v]] = Ok [Fin c] /\
    Gumbel.generator self [Fin u] = Ok [Fin gu] /\
    Gumbel.generator self [Fin v] = Ok [Fin gv] /\
    Gumbel.generator self [Fin c] = Ok [Fin (gu + gv)].
Proof.
  intros Hfit Hth [Ht _] Hu' Hv' Hlo Hnu Hnv Hsum Hlow.
  assert (He : 0 < / 2 ^ 20) by (apply Rinv_0_lt_compat; lra).
  assert (Hu : 0 < u < 1) by lra. assert (Hv : 0 < v < 1) by lra.
  pose proof (neg_ln_pos u Hu) as Hlu. pose proof (neg_ln_pos v Hv) as Hlv.
  pose proof (normal_pos _ Hnu) as Hpu. pose proof (normal_pos _ Hnv) as Hpv.
  do 3 eexists. split; [apply (gumbel_cdf_pair self t); assumption |].
  split; [apply (gumbel_generator_one self t); assumption |].
  split; [apply (gumbel_generator_one self t); assumption |].
  destruct (Reqb t 1) eqn:E.
  - apply Reqb_eq in E. subst t. rewrite !Rpower_1 in * by lra.
    assert (Huv : 0 < u * v < 1) by nra.
    assert (Hl : - ln (u * v) = - ln u + - ln v)
      by (rewrite ln_mult by lra; lra).
    rewrite (gumbel_generator_one self 1);
      try assumption; rewrite ?Rpower_1 by (rewrite Hl; lra); rewrite ?Hl.
    + reflexivity.
    + destruct Hnu, Hnv. split; lra.
  - apply Reqb_neq in E.
    destruct (gumbel_cdf_real t u v) as [Hh [Hc _]]; try lra.
    cbv zeta in Hh, Hc.
    assert (Hback : Rpower (- ln (Rtrigo_def.exp
                      (- Rpower (Rpower (- ln u) t + Rpower (- ln v) t)
                                (1 / t)))) t
                    = Rpower (- ln u) t + Rpower (- ln v) t).
    { rewrite ln_exp, Ropp_involutive, Rpower_mult.
      replace (1 / t * t) with 1 by (field; lra).
      apply Rpower_1. exact Hh. }
    rewrite (gumbel_generator_one self t);
      try assumption; rewrite ?Hback; try reflexivity.
    destruct Hnu, Hnv. split; lra.
Qed.

Lemma gumbel_archimedean_witness :
  exists c gu gv,
    Gumbel.cumulative_distribution (mkBivariate (Fin 2) (Fin (1/2)) true)
      [[Fin (9/10); Fin (4/5)]] = Ok [Fin c] /\
    Gumbel.generator (mkBivariate (Fin 2) (Fin (1/2)) true) [Fin (9/10)]
      = Ok [Fin gu] /\
    Gumbel.generator (mkBivariate (Fin 2) (Fin (1/2)) true) [Fin (4/5)]
      = Ok [Fin gv] /\
    Gumbel.generator (mkBivariate (Fin 2) (Fin (1/2)) true) [Fin c]
      = Ok [Fin (gu + gv)].
Proof.
  pose proof (neg_ln_bounds (9/10)) as Hu.
  pose proof (neg_ln_bounds (4/5)) as Hv.
  assert (Hpu : Rpower (- ln (9/10)) 2 = - ln (9/10) * - ln (9/10))
    by (apply Rpower_two; lra).
  assert (Hpv : Rpower (- ln (4/5)) 2 = - ln (4/5) * - ln (4/5))
    by (apply Rpower_two; lra).
  assert (Hh : 0 < Rpower (- ln (9/10)) 2 + Rpower (- ln (4/5)) 2 < 1)
    by (rewrite Hpu, Hpv; nra).
  assert (Hs : Rpower (Rpower (- ln (9/10)) 2 + Rpower (- ln (4/5)) 2) (1 / 2)
               <= 1).
  { left. apply Rpower_unit_pos; [exact Hh | lra]. }
  pose proof (exp_neg_above_third _ Hs) as He.
  apply (gumbel_archimedean (mkBivariate (Fin 2) (Fin (1/2)) true) 2
           (9/10) (4/5)); try reflexivity; try lra;
    unfold normal, float_min_normal, float_max in *; try lra;
    rewrite ?Hpu, ?Hpv; try split; nra.
Defined.

(** The generator of Independence, log, turns its distribution function
    into a sum: for positive finite u and v whose product is a normal
    float64 (it neither underflows nor overflows), the generator at
    [cumulative_distribution] of (u, v) is the sum of the generator at u and
    the generator at v.  The identity is exact here, where results are not
    rounded. *)
Theorem independence_archimedean (self : Bivariate) (u v : R) :
  0 < u -> 0 < v -> normal (u * v) ->
  exists c gu gv,
    Independence.cumulative_distribution self [[Fin u; Fin v]] = Ok [Fin c] /\
    Independence.generator self [Fin u] = Ok [Fin gu] /\
    Independence.generator self [Fin v] = Ok [Fin gv] /\
    Independence.generator self [Fin c] = Ok [Fin (gu + gv)].
Proof.
  intros Hu Hv Hn. exists (u * v), (ln u), (ln v).
  pose proof (normal_pos _ Hn) as Huv.
  unfold Independence.generator; cbn [map log]. rcompare.
  repeat split. rewrite ln_mult by assumption. reflexivity.
Qed.

Lemma independence_archimedean_witness :
  exists c gu gv,
    Independence.cumulative_distribution unfitted [[Fin (1/2); Fin 3]]
      = Ok [Fin c] /\
    Independence.generator unfitted [Fin (1/2)] = Ok [Fin gu] /\
    Independence.generator unfitted [Fin 3] = Ok [Fin gv] /\
    Independence.generator unfitted [Fin c] = Ok [Fin (gu + gv)].
Proof.
  apply (independence_archimedean unfitted (1/2) 3); try lra.
  unfold normal, float_min_normal, float_max; lra.
Defined.

(** ** Gumbel at theta = 1 and Independence *)

(** A fitted Gumbel with theta = 1 is the Independence copula on every
    input, a badly shaped one included: its [cumulative_distribution] is
    Independence's, and its [probability_density] returns that same product
    of the two columns. *)
Theorem gumbel_theta_one_is_independence
  (self other : Bivariate) (X : matrix) :
  fitted self = true -> theta self = Fin 1 ->
  Gumbel.cumulative_distribution self X
    = Independence.cumulative_distribution other X /\
  Gumbel.probability_density self X
    = Independence.cumulative_distribution other X.
Proof.
  intros Hfit Hth.
  unfold Gumbel.cumulative_distribution, Gumbel.probability_density,
    Independence.cumulative_distribution, check_fit.
  rewrite Hfit, Hth; cbn [bind feqb]. rcompare.
  split; destruct (split_matrix X) as [[U V]|e]; reflexivity.
Qed.

Lemma gumbel_theta_one_is_independence_witness :
  Gumbel.cumulative_distribution (mkBivariate (Fin 1) (Fin 0) true)
    [[Fin (1/2); Fin (1/3)]; [Fin 1]]
    = Independence.cumulative_distribution unfitted
        [[Fin (1/2); Fin (1/3)]; [Fin 1]] /\
  Gumbel.probability_density (mkBivariate (Fin 1) (Fin 0) true)
    [[Fin (1/2); Fin (1/3)]; [Fin 1]]
    = Independence.cumulative_distribution unfitted
        [[Fin (1/2); Fin (1/3)]; [Fin 1]].
Proof.
  apply (gumbel_theta_one_is_independence
           (mkBivariate (Fin 1) (Fin 0) true) unfitted); reflexivity.
Defined.

(** ** Gumbel's search *)

(** On a fitted Gumbel, [percent_point] never raises and never compares the
    lengths of its two arguments.  Away from theta = 1 it runs the search
    once per pair of [zip(y, V)], so the result is as long as the shorter
    argument; at theta = 1 the result is y, whatever V is. *)
Theorem gumbel_percent_point_shape
  (fminbound : (float64 -> float64) -> float64 -> float64 -> float64)
  (EPSILON : float64) (self : Bivariate) (y V : vector) :
  fitted self = true ->
  exists r,
    Gumbel.percent_point fminbound EPSILON self y V = Ok r /\
    length r = (if feqb (theta self) 1 then length y
                else Nat.min (length y) (length V)).
Proof.
  intros Hfit. unfold Gumbel.percent_point, check_fit.
  rewrite Hfit; cbn [bind].
  destruct (feqb (theta self) 1).
  - exists y. split; reflexivity.
  - eexists. split; [reflexivity |].
    rewrite length_map, length_combine. reflexivity.
Qed.

Lemma gumbel_percent_point_shape_witness :
  exists r,
    Gumbel.percent_point (fun _ a _ => a) (Fin (1/1000000))
      (mkBivariate (Fin 2) (Fin (1/2)) true) [Fin (1/2); Fin (1/3); Fin (1/4)]
      [Fin (1/5)] = Ok r /\
    length r = (if feqb (Fin 2) 1 then 3%nat else Nat.min 3 1).
Proof.
  apply (gumbel_percent_point_shape (fun _ a _ => a) (Fin (1/1000000))
           (mkBivariate (Fin 2) (Fin (1/2)) true)
           [Fin (1/2); Fin (1/3); Fin (1/4)] [Fin (1/5)]).
  reflexivity.
Defined.

(** ** Independence after fit *)

(** [Independence.fit] does not mark the instance as fitted, so on an
    instance that is not fitted a call of [fit] followed by [percent_point]
    still raises [UnfittedModelError], while [cumulative_distribution] after
    the same [fit] evaluates as before. *)
Theorem independence_fit_then_evaluate
  (self : Bivariate) (X Y : matrix) (y V : vector) :
  fitted self = false ->
  (s <- Independence.fit self X ;; Independence.percent_point s y V)
    = Raise UnfittedModelError /\
  (s <- Independence.fit self X ;; Independence.cumulative_distribution s Y)
    = Independence.cumulative_distribution self Y.
Proof.
  intros Hfit. unfold Independence.fit, Independence.percent_point, check_fit.
  cbn [bind]. rewrite Hfit. split; reflexivity.
Qed.

Lemma independence_fit_then_evaluate_witness :
  (s <- Independence.fit unfitted [[Fin (1/2); Fin (1/3)]] ;;
   Independence.percent_point s [Fin (1/2)] [Fin (1/3)])
    = Raise UnfittedModelError /\
  (s <- Independence.fit unfitted [[Fin (1/2); Fin (1/3)]] ;;
   Independence.cumulative_distribution s [[Fin (1/2); Fin (1/3)]])
    = Independence.cumulative_distribution unfitted [[Fin (1/2); Fin (1/3)]].
Proof.
  apply (independence_fit_then_evaluate unfitted); reflexivity.
Defined.

(** ** Theta and Kendall's tau *)

(** [Clayton.compute_theta] inverts the relation tau = theta / (theta + 2)
    of its docstring at every finite tau in [-1, 1): the result is finite,
    it is not below the lower end of [theta_interval], it is positive
    exactly when tau is, and at tau = 0 it is 0, the one value listed in
    [invalid_thetas]. *)
Theorem clayton_compute_theta_inverts_tau (th : float64) (f : bool) (t : R) :
  -1 <= t < 1 ->
  exists x,
    Clayton.compute_theta (mkBivariate th (Fin t) f) = Fin x /\
    x / (x + 2) = t /\
    fltb (Fin x) (fst Clayton.theta_interval) = false /\
    (0 < x <-> 0 < t) /\
    (In (Fin x) Clayton.invalid_thetas <-> t = 0).
Proof.
  intros Ht. exists (2 * t / (1 - t)).
  assert (Hd : 0 < 1 - t) by lra.
  assert (Hx : 2 * t / (1 - t) * (1 - t) = 2 * t) by (field; lra).
  unfold Clayton.compute_theta; cbn [tau feqb fmul fsub fneg fadd]. rcompare.
  rewrite fdiv_fin by lra.
  split; [reflexivity |]. split; [field; lra |].
  split; [cbn [Clayton.theta_interval fst fltb]; apply Rltb_false; nra |].
  split; [split; intros H; nra |].
  cbn [Clayton.invalid_thetas In]. split.
  - intros [[= E] | []]. nra.
  - intros ->. left. f_equal. field.
Qed.

Lemma clayton_compute_theta_inverts_tau_witness :
  exists x,
    Clayton.compute_theta (mkBivariate NaN (Fin (1/2)) false) = Fin x /\
    x / (x + 2) = 1/2 /\
    fltb (Fin x) (fst Clayton.theta_interval) = false /\
    (0 < x <-> 0 < 1/2) /\
    (In (Fin x) Clayton.invalid_thetas <-> 1/2 = 0).
Proof. apply (clayton_compute_theta_inverts_tau NaN false (1/2)). lra. Defined.

(** [Gumbel.compute_theta] inverts the relation tau = (theta - 1) / theta of
    its docstring at every tau from -1 up to, but not including, 1: the
    result is finite and positive; it reaches the lower end of
    [theta_interval], 1, whenever tau is not negative, and lies below it
    whenever tau is at most -2^-50. *)
Theorem gumbel_compute_theta_inverts_tau (th : float64) (f : bool) (t : R) :
  -1 <= t < 1 ->
  exists x,
    Gumbel.compute_theta (mkBivariate th (Fin t) f) = Fin x /\
    0 < x /\ (x - 1) / x = t /\
    (0 <= t -> fltb (Fin x) (fst Gumbel.theta_interval) = false) /\
    (t <= - / 2 ^ 50 -> fltb (Fin x) (fst Gumbel.theta_interval) = true).
Proof.
  intros [_ Ht]. exists (1 / (1 - t)).
  assert (Hd : 0 < 1 - t) by lra.
  pose proof (Rinv_pos_div (1 - t) Hd) as Hx.
  assert (Hm : 1 / (1 - t) * (1 - t) = 1) by (field; lra).
  unfold Gumbel.compute_theta; cbn [tau fsub fneg fadd].
  rewrite fdiv_fin by lra.
  split; [reflexivity |]. split; [exact Hx |]. split; [field; lra |].
  cbn [Gumbel.theta_interval fst fltb]. split.
  - intros H. apply Rltb_false. nra.
  - intros H. apply Rltb_true.
    assert (0 < / 2 ^ 50) by (apply Rinv_0_lt_compat; lra). nra.
Qed.

Lemma gumbel_compute_theta_inverts_tau_witness :
  exists x,
    Gumbel.compute_theta (mkBivariate NaN (Fin (1/2)) false) = Fin x /\
    0 < x /\ (x - 1) / x = 1/2 /\
    (0 <= 1/2 -> fltb (Fin x) (fst Gumbel.theta_interval) = false) /\
    (1/2 <= - / 2 ^ 50 -> fltb (Fin x) (fst Gumbel.theta_interval) = true).
Proof. apply (gumbel_compute_theta_inverts_tau NaN false (1/2)). lra. Defined.

(** ** Symmetry of the densities *)

Lemma gumbel_cdf_swap (self : Bivariate) (X : matrix) :
  Gumbel.cumulative_distribution self (swap_columns X)
  = Gumbel.cumulative_distribution self X.
Proof.
  unfold Gumbel.cumulative_distribution. rewrite split_matrix_swap.
  destruct (check_fit self); cbn [bind]; [| reflexivity].
  destruct (split_matrix X) as [[U V]|e]; cbn [bind]; [| reflexivity].
  rewrite (broadcast_comm fmul V U fmul_comm).
  rewrite (broadcast_comm fadd (Gumbel.neg_log V .** theta self)%f64
             (Gumbel.neg_log U .** theta self)%f64 fadd_comm).
  reflexivity.
Qed.

(** Exchanging the two columns of the input matrix leaves the result of
    [probability_density] unchanged, for Clayton and for Gumbel, whatever
    the instance state and the matrix are. *)
Theorem probability_density_symmetric (self : Bivariate) (X : matrix) :
  Clayton.probability_density self (swap_columns X)
    = Clayton.probability_density self X /\
  Gumbel.probability_density self (swap_columns X)
    = Gumbel.probability_density self X.
Proof.
  split.
  - unfold Clayton.probability_density. rewrite split_matrix_swap.
    destruct (check_fit self); cbn [bind]; [| reflexivity].
    destruct (split_matrix X) as [[U V]|e]; cbn [bind]; [| reflexivity].
    rewrite (broadcast_comm fmul V U fmul_comm).
    rewrite (broadcast_comm fadd (V .** (- theta self))%f64
               (U .** (- theta self))%f64 fadd_comm).
    reflexivity.
  - unfold Gumbel.probability_density.
    rewrite split_matrix_swap, gumbel_cdf_swap.
    destruct (check_fit self); cbn [bind]; [| reflexivity].
    destruct (split_matrix X) as [[U V]|e]; cbn [bind]; [| reflexivity].
    rewrite (broadcast_comm fmul V U fmul_comm).
    rewrite (broadcast_comm fadd (Gumbel.neg_log V .** theta self)%f64
               (Gumbel.neg_log U .** theta self)%f64 fadd_comm).
    rewrite (broadcast_comm fmul (map log V) (map log U) fmul_comm).
    reflexivity.
Qed.

(** ** Uniform margins *)

Lemma independence_cdf_pair (self : Bivariate) (u v : R) :
  Independence.cumulative_distribution self [[Fin u; Fin v]]
  = Ok [Fin (u * v)].
Proof. reflexivity. Qed.

Lemma gumbel_margin_entry (t u : R) :
  1 <= t -> 0 < u < 1 -> float_min_normal <= u ->
  normal (Rpower (- ln u) t) ->
  exp (- (((- log (Fin u)) ** Fin t + (- log (Fin 1)) ** Fin t) ** (1 / Fin t)))%f64
  = Fin u /\
  exp (- (((- log (Fin 1)) ** Fin t + (- log (Fin u)) ** Fin t) ** (1 / Fin t)))%f64
  = Fin u.
Proof.
  intros Ht Hu Hlo Hn. pose proof (neg_ln_pos u Hu) as Hl.
  pose proof (normal_pos _ Hn) as Hp.
  assert (Hroot : Rpower (Rpower (- ln u) t) (1 / t) = - ln u).
  { rewrite Rpower_mult. replace (t * (1 / t)) with 1 by (field; lra).
    apply Rpower_1, Hl. }
  assert (Hnl : normal (Rpower (Rpower (- ln u) t) (1 / t))).
  { rewrite Hroot. apply (normal_base (- ln u) t); assumption. }
  rewrite neg_log_one, power_zero_pos by lra.
  cbn [log]. rcompare. cbn [fneg]. rewrite power_normal by assumption.
  cbn [fadd]. rewrite fdiv_fin by lra.
  rewrite Rplus_0_r, Rplus_0_l, power_normal by assumption.
  cbn [fneg exp]. rewrite Hroot, Ropp_involutive, exp_ln by lra.
  rewrite finite_result_normal by (apply normal_unit; lra).
  split; reflexivity.
Qed.

(** The margins are uniform.  For u strictly between 0 and 1 and at least
    the smallest normal float64: with a fitted Clayton theta between 2^-10
    and 2^20 such that u^-theta + 1 does not exceed the largest float64, and
    a fitted Gumbel theta between 1 and 2^20 such that (-ln u)^theta is a
    normal float64 (nothing overflows or underflows),
    [cumulative_distribution] at (u, 1) and at (1, u) is u itself, in every
    family.  The values are exact here, where results are not rounded. *)
Theorem cumulative_distribution_margins
  (clayton gumbel independence : Bivariate) (tc tg u : R) :
  fitted clayton = true -> theta clayton = Fin tc ->
  / 2 ^ 10 <= tc <= 2 ^ 20 ->
  fitted gumbel = true -> theta gumbel = Fin tg -> 1 <= tg <= 2 ^ 20 ->
  0 < u < 1 -> float_min_normal <= u ->
  Rpower u (- tc) + 1 <= float_max ->
  normal (Rpower (- ln u) tg) ->
  (Clayton.cumulative_distribution clayton [[Fin u; Fin 1]] = Ok [Fin u] /\
   Clayton.cumulative_distribution clayton [[Fin 1; Fin u]] = Ok [Fin u]) /\
  (Gumbel.cumulative_distribution gumbel [[Fin u; Fin 1]] = Ok [Fin u] /\
   Gumbel.cumulative_distribution gumbel [[Fin 1; Fin u]] = Ok [Fin u]) /\
  (Independence.cumulative_distribution independence [[Fin u; Fin 1]]
     = Ok [Fin u] /\
   Independence.cumulative_distribution independence [[Fin 1; Fin u]]
     = Ok [Fin u]).
Proof.
  intros Hc Hthc [Htc _] Hg Hthg [Htg _] Hu Hlo Hpow Hn.
  assert (Htc0 : 0 < tc) by lra.
  assert (H1 : Rpower 1 (- tc) = 1).
  { unfold Rpower. rewrite ln_1, Rmult_0_r, exp_0. reflexivity. }
  repeat split.
  - rewrite (clayton_cdf_pair clayton tc) by (rewrite ?H1; assumption || lra).
    rewrite H1. do 3 f_equal.
    replace (Rpower u (- tc) + 1 + - (1)) with (Rpower u (- tc)) by lra.
    apply Rpower_inverse_exponents; lra.
  - rewrite (clayton_cdf_pair clayton tc) by (rewrite ?H1; assumption || lra).
    rewrite H1. do 3 f_equal.
    replace (1 + Rpower u (- tc) + - (1)) with (Rpower u (- tc)) by lra.
    apply Rpower_inverse_exponents; lra.
  - unfold Gumbel.cumulative_distribution, check_fit.
    rewrite Hg, Hthg; cbn [bind split_matrix feqb].
    destruct (Reqb tg 1) eqn:E.
    + cbn. do 3 f_equal. lra.
    + cbn [Gumbel.neg_log map vscalar_r broadcast length Nat.eqb zip_with bind].
      destruct (gumbel_margin_entry tg u) as [-> _]; try assumption.
      reflexivity.
  - unfold Gumbel.cumulative_distribution, check_fit.
    rewrite Hg, Hthg; cbn [bind split_matrix feqb].
    destruct (Reqb tg 1) eqn:E.
    + cbn. do 3 f_equal. lra.
    + cbn [Gumbel.neg_log map vscalar_r broadcast length Nat.eqb zip_with bind].
      destruct (gumbel_margin_entry tg u) as [_ ->]; try assumption.
      reflexivity.
  - rewrite independence_cdf_pair. do 3 f_equal. lra.
  - rewrite independence_cdf_pair. do 3 f_equal. lra.
Qed.

Lemma cumulative_distribution_margins_witness :
  Clayton.cumulative_distribution (mkBivariate (Fin 1) (Fin (1/3)) true)
    [[Fin (1/2); Fin 1]] = Ok [Fin (1/2)] /\
  Gumbel.cumulative_distribution (mkBivariate (Fin 2) (Fin (1/2)) true)
    [[Fin 1; Fin (1/2)]] = Ok [Fin (1/2)].
Proof.
  pose proof (neg_ln_bounds (1/2)) as Hl.
  assert (Hp : Rpower (1/2) (- (1)) = 2).
  { rewrite Rpower_Ropp, Rpower_1 by lra. lra. }
  assert (Hg : Rpower (- ln (1/2)) 2 = - ln (1/2) * - ln (1/2))
    by (apply Rpower_two; lra).
  pose proof (cumulative_distribution_margins
                (mkBivariate (Fin 1) (Fin (1/3)) true)
                (mkBivariate (Fin 2) (Fin (1/2)) true) unfitted
                1 2 (1/2) eq_refl eq_refl) as H.
  destruct H as [[H1 _] [[_ H2] _]];
    try reflexivity; try lra;
    try (unfold float_min_normal; lra);
    try (rewrite Hp; unfold float_max; lra);
    try (rewrite Hg; unfold normal, float_min_normal, float_max; split; nra).
  split; assumption.
Defined.

